(** * A shallow embedding of the graph object model of graphmodel

    This development embeds [GraphSchema] and [GraphObject] from
    src/src/graphSchema.ts and [GraphProperty] from src/src/graphProperty.ts.

    Modelling choices:
    - JavaScript values of type [any] are [jsval := option jsnum], where [None]
      is [undefined] (the "unset" sentinel), a [jsnum] is a number or [NaN],
      and [===] is [jsval_eqb]; as in JavaScript, [NaN === NaN] is false.
    - Graphs, properties and the identity of categories are object references,
      modelled as [nat].
    - A JavaScript [Map] is an association list kept in insertion order
      ([Map.set] on a present key updates in place, on a new key appends);
      a [Set] is a duplicate-free list in insertion order.
    - The lazily allocated [_properties] / [_categories] fields are modelled by
      the empty list while they are [undefined]: no code path distinguishes an
      unallocated field from an empty collection.
    - Observers are not modelled one by one: a raised event is appended to the
      event trace of the operation. *)

From Stdlib Require Import List String ZArith Bool Lia.
Import ListNotations.
Set Warnings "-register-all".

(* ------------------------------------------------------------------ *)
(** ** Values, references and small association-list helpers *)

(** A number: an integer or [NaN]. *)
Inductive jsnum := Num (z : Z) | NaN.

Definition jsval := option jsnum.

(** [===]: [NaN] is not equal to anything, itself included. *)
Definition jsval_eqb (a b : jsval) : bool :=
  match a, b with
  | None, None => true
  | Some (Num x), Some (Num y) => Z.eqb x y
  | _, _ => false
  end.

Definition is_defined (v : jsval) : bool :=
  match v with Some _ => true | None => false end.

Definition graph := nat.
Definition property := nat.

Fixpoint assoc {B} (k : nat) (l : list (nat * B)) : option B :=
  match l with
  | [] => None
  | (k', b) :: rest => if Nat.eqb k k' then Some b else assoc k rest
  end.

(** [Map.prototype.has] *)
Definition map_has {B} (k : nat) (l : list (nat * B)) : bool :=
  match assoc k l with Some _ => true | None => false end.

(** [Map.prototype.get]: [undefined] for an absent key. *)
Definition map_get (k : nat) (l : list (nat * jsval)) : jsval :=
  match assoc k l with Some v => v | None => None end.

(** [Map.prototype.set]: in place when present, appended otherwise. *)
Fixpoint map_set_in {B} (k : nat) (b : B) (l : list (nat * B)) : option (list (nat * B)) :=
  match l with
  | [] => None
  | (k', b') :: rest =>
      if Nat.eqb k k' then Some ((k', b) :: rest)
      else option_map (cons (k', b')) (map_set_in k b rest)
  end.

Definition map_set {B} (k : nat) (b : B) (l : list (nat * B)) : list (nat * B) :=
  match map_set_in k b l with Some l' => l' | None => l ++ [(k, b)] end.

(** [Map.prototype.delete] *)
Definition map_delete {B} (k : nat) (l : list (nat * B)) : list (nat * B) :=
  filter (fun e => negb (Nat.eqb k (fst e))) l.

(* ------------------------------------------------------------------ *)
(** ** Metadata and metadata containers *)

(** Modelled from the spec: GraphMetadata (graphMetadata.ts is not among the
    sources). A record with a default value, an optional validator, the flags
    [isImmutable], [isRemovable], [isSharable], and, for category metadata,
    the properties it owns with their values ([hasOwn] and [get]). *)
Record metadata := mkMetadata {
  defaultValue : jsval;
  validator : option (jsval -> bool);
  isImmutable : bool;
  isRemovable : bool;
  isSharable : bool;
  ownProperties : list (property * jsval)
}.

Definition canValidate (md : metadata) : bool :=
  match validator md with Some _ => true | None => false end.

Definition validate (md : metadata) (v : jsval) : bool :=
  match validator md with Some f => f v | None => true end.

Definition md_hasOwn (md : metadata) (p : property) : bool :=
  map_has p (ownProperties md).

Definition md_get (md : metadata) (p : property) : jsval :=
  map_get p (ownProperties md).

(** Modelled from the spec: GraphMetadataContainer (graphMetadataContainer.ts
    is not among the sources). Per-owner metadata is cached by owner identity
    and created by the factory on first request; [createDefaultMetadata]
    builds an ownerless metadata with the same factory. The cache entry that
    [getMetadata] creates holds the factory's metadata, so reading it through
    this function is the same as inserting it first. *)
Record container := mkContainer {
  mc_factory : metadata;
  mc_cache : list (graph * metadata)
}.

Definition getMetadata (c : container) (owner : graph) : metadata :=
  match assoc owner (mc_cache c) with
  | Some md => md
  | None => mc_factory c
  end.

Definition createDefaultMetadata (c : container) : metadata := mc_factory c.

(* ------------------------------------------------------------------ *)
(** ** Categories and schemas *)

(** A [GraphCategory]: its reference (identity), its id and its [basedOn]
    parent. Holding the parent structurally makes the chain acyclic, as the
    spec requires of every category chain. *)
Inductive category : Type :=
| Category (cref : nat) (cid : string) (basedOn : option category).

(** Reference equality on categories ([===]). *)
Fixpoint category_eqb (a b : category) : bool :=
  match a, b with
  | Category r id p, Category r' id' p' =>
      Nat.eqb r r' && String.eqb id id' &&
      match p, p' with
      | None, None => true
      | Some c, Some c' => category_eqb c c'
      | _, _ => false
      end
  end.

Definition category_ref (c : category) : nat :=
  match c with Category r _ _ => r end.

Definition category_id (c : category) : string :=
  match c with Category _ id _ => id end.

(** [Set.prototype.has], [add] and [delete] on a set of categories. *)
Definition set_has (c : category) (s : list category) : bool :=
  existsb (category_eqb c) s.

Definition set_add (c : category) (s : list category) : list category :=
  if set_has c s then s else s ++ [c].

Definition set_delete (c : category) (s : list category) : list category :=
  filter (fun c' => negb (category_eqb c c')) s.

(** A [GraphSchema]: name, [_categories], [_properties] and [_schemas], each
    [None] while still unallocated. *)
Inductive schema : Type :=
| Schema (name : string) (categories : option (list category))
         (properties : option (list property)) (schemas : option (list schema)).

Definition schema_categories (s : schema) : option (list category) :=
  match s with Schema _ cs _ _ => cs end.

Definition schema_properties (s : schema) : option (list property) :=
  match s with Schema _ _ ps _ => ps end.

Definition schema_children (s : schema) : list schema :=
  match s with Schema _ _ _ ch => match ch with Some l => l | None => [] end end.

(** [GraphSchema.allSchemas]: yield this schema, then [yield*] the
    [allSchemas] of each child in the collection's iteration order.
    Modelled from the spec: GraphSchemaCollection (graphSchemaCollection.ts is
    not among the sources) iterates its child schemas in insertion order. *)
Fixpoint allSchemas (s : schema) : list schema :=
  match s with
  | Schema _ _ _ ch =>
      s :: match ch with
           | None => []
           | Some l =>
               (fix all_children (l : list schema) : list schema :=
                  match l with
                  | [] => []
                  | c :: rest => allSchemas c ++ all_children rest
                  end) l
           end
  end.

(** Modelled from the spec: GraphCategoryCollection.get (graphCategoryCollection.ts
    is not among the sources); the category of the schema with that id. *)
Definition category_collection_get (cs : list category) (id : string) : option category :=
  find (fun c => String.eqb (category_id c) id) cs.

Fixpoint first_some {A B} (f : A -> option B) (l : list A) : option B :=
  match l with
  | [] => None
  | a :: rest => match f a with Some b => Some b | None => first_some f rest end
  end.

(** The body of the loop of [findCategory] for one schema. *)
Definition schema_find_own_category (s : schema) (id : string) : option category :=
  match schema_categories s with
  | Some cs => category_collection_get cs id
  | None => None
  end.

(** [GraphSchema.findCategory] *)
Definition findCategory (s : schema) (id : string) : option category :=
  first_some (fun sc => schema_find_own_category sc id) (allSchemas s).

(* ------------------------------------------------------------------ *)
(** ** The environment of definitions an object is resolved against *)

(** The parts of [GraphProperty], [GraphCategory] and [Graph] that the object
    operations read: the property's id and metadata container, the metadata
    container of each category (by reference), and each graph's schema. *)
Record env := mkEnv {
  prop_id : property -> string;
  prop_container : property -> container;
  cat_container : nat -> container;
  graph_schema : graph -> schema
}.

(** Modelled from the spec: GraphPropertyCollection.get (graphPropertyCollection.ts
    is not among the sources); the property of the schema with that id. *)
Definition property_collection_get (E : env) (ps : list property) (id : string) : option property :=
  find (fun p => String.eqb (prop_id E p) id) ps.

Definition schema_find_own_property (E : env) (s : schema) (id : string) : option property :=
  match schema_properties s with
  | Some ps => property_collection_get E ps id
  | None => None
  end.

(** [GraphSchema.findProperty] *)
Definition findProperty (E : env) (s : schema) (id : string) : option property :=
  first_some (fun sc => schema_find_own_property E sc id) (allSchemas s).

(** Modelled from the spec: Graph._importMetadata (graph.ts is not among the
    sources): returns the destination graph's own metadata entry for the
    definition, creating it if needed, whatever graph it comes from. *)
Definition _importMetadata (dest : graph) (source : option graph) (c : container) : metadata :=
  getMetadata c dest.

(* ------------------------------------------------------------------ *)
(** ** Graph objects *)

(** [GraphObject]'s state: [_owner], [_categories] and [_properties]. *)
Record gobject := mkObject {
  o_owner : option graph;
  o_categories : list category;
  o_properties : list (property * jsval)
}.

Definition with_properties (o : gobject) (ps : list (property * jsval)) : gobject :=
  mkObject (o_owner o) (o_categories o) ps.

Definition with_categories (o : gobject) (cs : list category) : gobject :=
  mkObject (o_owner o) cs (o_properties o).

Inductive category_change := CAdd | CDelete.

(** The events of [GraphObjectEvents]: [onPropertyChanged] receives the
    property's id, [onCategoryChanged] the change and the category. *)
Inductive event :=
| PropertyChanged (id : string)
| CategoryChanged (change : category_change) (c : category).

(** A state-and-trace monad over one object: each method reads and writes the
    object's fields and raises events in order. *)
Definition M (A : Type) : Type := gobject -> A * gobject * list event.

Definition ret {A} (a : A) : M A := fun o => (a, o, []).

Definition bind {A B} (m : M A) (k : A -> M B) : M B :=
  fun o => let '(a, o1, e1) := m o in
           let '(b, o2, e2) := k a o1 in (b, o2, e1 ++ e2).

Notation "x <- m ;; k" := (bind m (fun x => k))
  (at level 61, m at next level, right associativity).
Notation "m ;;; k" := (bind m (fun _ => k))
  (at level 61, right associativity).

Definition this : M gobject := fun o => (o, o, []).

Definition modify (f : gobject -> gobject) : M unit := fun o => (tt, f o, []).

Definition raise (e : event) : M unit := fun o => (tt, o, [e]).

(** [_raiseOnPropertyChanged] and [_raiseOnCategoryChanged] *)
Definition _raiseOnPropertyChanged (E : env) (p : property) : M unit :=
  raise (PropertyChanged (prop_id E p)).

Definition _raiseOnCategoryChanged (change : category_change) (c : category) : M unit :=
  raise (CategoryChanged change c).

(** A key of [get], [set], [delete]: a property id or a property. *)
Inductive propkey := PKId (id : string) | PKProp (p : property).

(** [isGraphPropertyIdLIke(key) ? this.schema?.findProperty(key) : key] *)
Definition resolve_property (E : env) (o : gobject) (key : propkey) : option property :=
  match key with
  | PKId id =>
      match o_owner o with
      | Some g => findProperty E (graph_schema E g) id
      | None => None
      end
  | PKProp p => Some p
  end.

(** The walk of one category up its [basedOn] chain in [_find]. *)
Fixpoint find_in_chain (E : env) (g : graph) (p : property) (c : category) : option metadata :=
  match c with
  | Category r _ b =>
      let md := getMetadata (cat_container E r) g in
      if md_hasOwn md p then Some md
      else match b with
           | Some c' => find_in_chain E g p c'
           | None => None
           end
  end.

Fixpoint find_in_categories (E : env) (g : graph) (p : property) (cs : list category) : option metadata :=
  match cs with
  | [] => None
  | c :: rest =>
      match find_in_chain E g p c with
      | Some md => Some md
      | None => find_in_categories E g p rest
      end
  end.

(** [GraphObject._find] *)
Definition _find (E : env) (o : gobject) (p : property) : option metadata :=
  match o_owner o with
  | Some g => find_in_categories E g p (o_categories o)
  | None => None
  end.

(** [GraphObject.get] *)
Definition get (E : env) (o : gobject) (key : propkey) : jsval :=
  match resolve_property E o key with
  | None => None
  | Some p =>
      let value := map_get p (o_properties o) in
      let value :=
        match value with
        | None => match _find E o p with Some md => md_get md p | None => None end
        | Some _ => value
        end in
      match value, o_owner o with
      | None, Some g => defaultValue (getMetadata (prop_container E p) g)
      | _, _ => value
      end
  end.

(** [this._owner ? propertyObj.getMetadata(this._owner) : propertyObj.createDefaultMetadata()] *)
Definition property_metadata (E : env) (o : gobject) (p : property) : metadata :=
  match o_owner o with
  | Some g => getMetadata (prop_container E p) g
  | None => createDefaultMetadata (prop_container E p)
  end.

(** [GraphObject.delete] *)
Definition delete (E : env) (key : propkey) : M bool :=
  o <- this ;;
  match resolve_property E o key with
  | None => ret false
  | Some p =>
      if negb (map_has p (o_properties o)) then ret false else
      let md := property_metadata E o p in
      if negb (isRemovable md) then ret false else
      modify (fun o => with_properties o (map_delete p (o_properties o))) ;;;
      _raiseOnPropertyChanged E p ;;;
      ret true
  end.

(** [GraphObject.set]; it returns [this], modelled as [tt]. *)
Definition set (E : env) (key : propkey) (value : jsval) : M unit :=
  match value with
  | None => delete E key ;;; ret tt
  | Some _ =>
      o <- this ;;
      match resolve_property E o key with
      | None => ret tt
      | Some p =>
          let ownValue := map_get p (o_properties o) in
          if jsval_eqb value ownValue then ret tt else
          let md := property_metadata E o p in
          if is_defined ownValue && isImmutable md then ret tt else
          if canValidate md && negb (validate md value) then ret tt else
          modify (fun o => with_properties o (map_set p value (o_properties o))) ;;;
          _raiseOnPropertyChanged E p
      end
  end.

(** [GraphObject.addCategory]; it returns [this], modelled as [tt]. *)
Definition addCategory (c : category) : M unit :=
  o <- this ;;
  if set_has c (o_categories o) then ret tt else
  modify (fun o => with_categories o (o_categories o ++ [c])) ;;;
  _raiseOnCategoryChanged CAdd c.

(** The argument of [deleteCategory]: a category id or a category. *)
Inductive catkey := CKId (id : string) | CKCat (c : category).

(** The values [deleteCategory] can return: a boolean, a category, or
    [undefined]. *)
Inductive delete_category_result :=
| DelBool (b : bool)
| DelCategory (c : category)
| DelUndefined.

(** [GraphObject.deleteCategory] *)
Definition deleteCategory (E : env) (category : catkey) : M delete_category_result :=
  o <- this ;;
  let categoryObj :=
    match category with
    | CKId id =>
        match o_owner o with
        | Some g => findCategory (graph_schema E g) id
        | None => None
        end
    | CKCat c => Some c
    end in
  match categoryObj with
  | None => ret DelUndefined
  | Some c =>
      if set_has c (o_categories o) then
        modify (fun o => with_categories o (set_delete c (o_categories o))) ;;;
        _raiseOnCategoryChanged CDelete c ;;;
        ret (match category with CKId _ => DelCategory c | CKCat _ => DelBool true end)
      else ret (DelBool false)
  end.

(** The loop of [copyCategories] over [other._categories]. The call
    [this._owner?._importMetadata(other._owner, category)] only touches the
    owner graph's metadata, not this object. *)
Fixpoint copy_categories_loop (cs : list category) (changed : bool) : M bool :=
  match cs with
  | [] => ret changed
  | c :: rest =>
      o <- this ;;
      if set_has c (o_categories o) then copy_categories_loop rest changed else
      modify (fun o => with_categories o (o_categories o ++ [c])) ;;;
      _raiseOnCategoryChanged CAdd c ;;;
      copy_categories_loop rest true
  end.

(** [GraphObject.copyCategories] *)
Definition copyCategories (other : gobject) : M bool :=
  match o_categories other with
  | [] => ret false
  | cs => copy_categories_loop cs false
  end.

(** The loop of [copyProperties] over [other._properties]; [source] is
    [other._owner]. *)
Fixpoint copy_properties_loop (E : env) (source : option graph)
    (entries : list (property * jsval)) (changed : bool) : M bool :=
  match entries with
  | [] => ret changed
  | (p, value) :: rest =>
      o <- this ;;
      let ownValue := map_get p (o_properties o) in
      if jsval_eqb ownValue value then copy_properties_loop E source rest changed else
      let metadata :=
        match o_owner o with
        | Some g => Some (_importMetadata g source (prop_container E p))
        | None => None
        end in
      let skip :=
        match metadata with
        | Some md =>
            negb (isSharable md)
            || (isImmutable md && is_defined ownValue)
            || (canValidate md && negb (validate md value))
        | None => false
        end in
      if skip then copy_properties_loop E source rest changed else
      modify (fun o => with_properties o (map_set p value (o_properties o))) ;;;
      _raiseOnPropertyChanged E p ;;;
      copy_properties_loop E source rest true
  end.

(** [GraphObject.copyProperties] *)
Definition copyProperties (E : env) (other : gobject) : M bool :=
  match o_properties other with
  | [] => ret false
  | entries => copy_properties_loop E (o_owner other) entries false
  end.

(** [GraphObject._setOwner] *)
Definition _setOwner (owner : option graph) : M unit :=
  o <- this ;;
  match owner, o_owner o with
  | Some g, None => modify (fun o => mkObject (Some g) (o_categories o) (o_properties o))
  | _, _ => ret tt
  end.

(** [GraphObject._mergeFrom] *)
Definition _mergeFrom (E : env) (other : gobject) : M bool :=
  c1 <- copyProperties E other ;;
  c2 <- copyCategories other ;;
  ret (c1 || c2).

(** The constructor [new GraphObject(owner, category)]. *)
Definition new_object (owner : option graph) (category : option category) : gobject :=
  let o := mkObject owner [] [] in
  match category with
  | Some c => let '(_, o', _) := addCategory c o in o'
  | None => o
  end.

(* ------------------------------------------------------------------ *)
(** ** A world of graph objects *)

(** A heap of objects addressed by index; an operation names its target
    object, and a copy or merge also names the source object, which may be
    the target itself. *)
Definition world := list gobject.

Inductive world_op :=
| WNew (owner : option graph) (category : option category)
| WSet (i : nat) (key : propkey) (value : jsval)
| WDelete (i : nat) (key : propkey)
| WAddCategory (i : nat) (c : category)
| WDeleteCategory (i : nat) (k : catkey)
| WCopyProperties (i j : nat)
| WCopyCategories (i j : nat)
| WMergeFrom (i j : nat)
| WSetOwner (i : nat) (owner : option graph).

Fixpoint replace_nth {A} (l : list A) (i : nat) (a : A) : list A :=
  match l, i with
  | [], _ => []
  | _ :: rest, 0 => a :: rest
  | x :: rest, S i' => x :: replace_nth rest i' a
  end.

(** Run a method on object [i]; a missing object is left alone. *)
Definition on_object {A} (w : world) (i : nat) (m : M A) : world :=
  match nth_error w i with
  | Some o => let '(_, o', _) := m o in replace_nth w i o'
  | None => w
  end.

Definition with_other {A} (w : world) (i j : nat) (m : gobject -> M A) : world :=
  match nth_error w j with
  | Some other => on_object w i (m other)
  | None => w
  end.

Definition world_step (E : env) (w : world) (op : world_op) : world :=
  match op with
  | WNew owner c => w ++ [new_object owner c]
  | WSet i key v => on_object w i (set E key v)
  | WDelete i key => on_object w i (delete E key)
  | WAddCategory i c => on_object w i (addCategory c)
  | WDeleteCategory i k => on_object w i (deleteCategory E k)
  | WCopyProperties i j => with_other w i j (copyProperties E)
  | WCopyCategories i j => with_other w i j copyCategories
  | WMergeFrom i j => with_other w i j (_mergeFrom E)
  | WSetOwner i g => on_object w i (_setOwner g)
  end.

Definition run_world (E : env) (w : world) (ops : list world_op) : world :=
  fold_left (world_step E) ops w.

(* ------------------------------------------------------------------ *)
(** ** A concrete environment for the scenarios of the spec *)

(** A metadata with default [d] and the given flags. *)
Definition plain_metadata (d : jsval) (immutable removable sharable : bool) : metadata :=
  mkMetadata d None immutable removable sharable [].

(** Property 0 is [P] (default 0, mutable, removable, sharable); property 1
    is [Q] (immutable); property 2 is [R] (validator accepting only values
    below 10). Category 1 is [B], whose metadata owns [P] with value 7;
    category 2 is [A], based on [B]. Every graph has the schema [S0]. *)
Definition prop_P : property := 0.
Definition prop_Q : property := 1.
Definition prop_R : property := 2.

Definition cat_B : category := Category 1 "B"%string None.
Definition cat_A : category := Category 2 "A"%string (Some cat_B).

Definition S0 : schema :=
  Schema "S"%string (Some [cat_A]) (Some [prop_P])
    (Some [Schema "child"%string (Some [Category 3 "A"%string None; cat_B]) (Some [prop_Q; prop_R]) None]).

Definition E0 : env := {|
  prop_id := fun p => match p with 0 => "P"%string | 1 => "Q"%string | _ => "R"%string end;
  prop_container := fun p =>
    match p with
    | 0 => mkContainer (plain_metadata (Some (Num 0)) false true true) []
    | 1 => mkContainer (plain_metadata None true true true) []
    | _ => mkContainer (mkMetadata None (Some (fun v => match v with
                                                       | Some (Num z) => Z.ltb z 10
                                                       | _ => false end))
                                    false true true []) []
    end;
  cat_container := fun r =>
    match r with
    | 1 => mkContainer (mkMetadata None None false true true [(prop_P, Some (Num 7))]) []
    | _ => mkContainer (plain_metadata None false true true) []
    end;
  graph_schema := fun _ => S0
|}.

Definition ownerless : gobject := mkObject None [] [].
Definition in_G (g : graph) : gobject := mkObject (Some g) [] [].

(* ------------------------------------------------------------------ *)
(** ** Reference definitions that follow the spec's words *)

(** A category followed by its [basedOn] ancestors. *)
Fixpoint category_chain (c : category) : list category :=
  match c with
  | Category _ _ b => c :: match b with Some c' => category_chain c' | None => [] end
  end.

(** The metadata of category [c] for graph [g], when it owns property [p]. *)
Definition owning_metadata (E : env) (g : graph) (p : property) (c : category) : option metadata :=
  let md := getMetadata (cat_container E (category_ref c)) g in
  if md_hasOwn md p then Some md else None.

Definition or_else (a b : jsval) : jsval :=
  match a with Some _ => a | None => b end.

(** The resolution order of [get] as the spec states it: own value, then the
    value of the first category (in set order, each followed by its
    ancestors) whose per-owner metadata owns the property, then the per-owner
    default; [undefined] when none resolves. *)
Definition get_by_resolution_order (E : env) (o : gobject) (p : property) : jsval :=
  or_else (map_get p (o_properties o))
    (or_else
       (match o_owner o with
        | Some g =>
            match first_some (owning_metadata E g p) (flat_map category_chain (o_categories o)) with
            | Some md => md_get md p
            | None => None
            end
        | None => None
        end)
       (match o_owner o with
        | Some g => defaultValue (getMetadata (prop_container E p) g)
        | None => None
        end)).

(** One entry of [copyProperties] as the spec describes it: an entry whose
    value equals the destination's is passed over; otherwise the metadata
    from the owner-import step (none when the destination has no owner)
    skips it when not sharable, immutable with a value present, or rejecting
    the value; otherwise the value is written and an event raised. *)
Definition copy_entry_by_claim (E : env) (dest source : option graph)
    (acc : list (property * jsval) * bool * list event) (entry : property * jsval)
    : list (property * jsval) * bool * list event :=
  let '(props, changed, evs) := acc in
  let '(p, value) := entry in
  let own := map_get p props in
  if jsval_eqb own value then acc else
  let imported :=
    match dest with
    | Some g => Some (_importMetadata g source (prop_container E p))
    | None => None
    end in
  let not_sharable := match imported with Some md => negb (isSharable md) | None => false end in
  let immutable_present :=
    match imported with Some md => isImmutable md && is_defined own | None => false end in
  let rejected :=
    match imported with Some md => canValidate md && negb (validate md value) | None => false end in
  if not_sharable || immutable_present || rejected then acc
  else (map_set p value props, true, evs ++ [PropertyChanged (prop_id E p)]).

Definition copyProperties_by_claim (E : env) (other o : gobject) : bool * gobject * list event :=
  let '(props, changed, evs) :=
    fold_left (copy_entry_by_claim E (o_owner o) (o_owner other)) (o_properties other)
      (o_properties o, false, []) in
  (changed, mkObject (o_owner o) (o_categories o) props, evs).

(* ------------------------------------------------------------------ *)
(** ** Predicates and scenarios used by the proofs *)

(** The spec's scenario: the ownerless object after [O.set(P, 5)]. *)
Definition scenario_after_set : gobject :=
  let '(_, o, _) := set E0 (PKProp prop_P) (Some (Num 5)) ownerless in o.

(** A method preserves a predicate on the object's state. *)
Definition preserves {A} (P : gobject -> Prop) (m : M A) : Prop :=
  forall o, P o -> P (snd (fst (m o))).

(** No stored property value is the unset sentinel. *)
Definition no_unset (o : gobject) : Prop :=
  Forall (fun e => snd e <> None) (o_properties o).

(** The owner of an object, once some graph [g], stays [g]. *)
Definition owned_by (g : graph) (o : gobject) : Prop := o_owner o = Some g.

(** Object [i] of the world satisfies [P]. *)
Definition at_index (P : gobject -> Prop) (w : world) (i : nat) : Prop :=
  exists o, nth_error w i = Some o /\ P o.

(** The state and events a method leaves, its result dropped. *)
Definition effect {A} (m : M A) (o : gobject) : gobject * list event :=
  let '(_, o', ev) := m o in (o', ev).

Definition owner_ops : list world_op :=
  [WSetOwner 0 (Some 2); WSet 0 (PKProp prop_P) (Some (Num 4)); WNew None None;
   WCopyProperties 1 0; WSetOwner 1 (Some 3); WMergeFrom 0 1; WSetOwner 0 (Some 3)].

(** The spec's scenario: [X] (owner 1) has [Q = 3], [Q] is immutable, [Y]
    (owner 2) has [Q = 9]. *)
Definition copy_X : gobject := mkObject (Some 1) [] [(prop_Q, Some (Num 3))].
Definition copy_Y : gobject := mkObject (Some 2) [] [(prop_Q, Some (Num 9))].

(* ------------------------------------------------------------------ *)
(** ** Further members of GraphSchema and GraphObject *)

Definition schema_name (s : schema) : string :=
  match s with Schema n _ _ _ => n end.

(** [GraphSchema.hasSchema], for a schema name: this schema's name, then each
    child in the collection's order. *)
Fixpoint hasSchema (s : schema) (name : string) : bool :=
  match s with
  | Schema n _ _ ch =>
      String.eqb name n ||
      match ch with
      | None => false
      | Some l =>
          (fix any_child (l : list schema) : bool :=
             match l with
             | [] => false
             | c :: rest => hasSchema c name || any_child rest
             end) l
      end
  end.

(** Modelled from the spec: GraphCategoryCollection.values(ids)
    (graphCategoryCollection.ts is not among the sources); the categories of
    the collection with the requested ids, in id-list order. *)
Definition category_collection_values (cs : list category) (ids : list string) : list category :=
  flat_map (fun id => match category_collection_get cs id with Some c => [c] | None => [] end) ids.

(** [GraphSchema.findCategories] *)
Definition findCategories (s : schema) (ids : list string) : list category :=
  flat_map (fun sc => match schema_categories sc with
                      | Some cs => category_collection_values cs ids
                      | None => []
                      end) (allSchemas s).

(** [GraphObject.hasOwn] *)
Definition hasOwn (E : env) (o : gobject) (key : propkey) : bool :=
  match resolve_property E o key with
  | None => false
  | Some p => map_has p (o_properties o)
  end.

(** [GraphObject.has] *)
Definition has (E : env) (o : gobject) (key : propkey) : bool :=
  match resolve_property E o key with
  | None => false
  | Some p =>
      hasOwn E o (PKProp p) ||
      match _find E o p with Some _ => true | None => false end
  end.

(** Modelled from the spec: GraphCategory._isBasedOnCategory and
    _isBasedOnCategoryId (graphCategory.ts is not among the sources): the
    category, or one of its [basedOn] ancestors, is [other] (resp. has the
    id). *)
Definition _isBasedOnCategory (c other : category) : bool :=
  existsb (category_eqb other) (category_chain c).

Definition _isBasedOnCategoryId (c : category) (id : string) : bool :=
  existsb (fun a => String.eqb (category_id a) id) (category_chain c).

(** [GraphObject._hasCategory] and [GraphObject._hasCategoryId] *)
Definition _hasCategory (o : gobject) (category : category) : bool :=
  existsb (fun own => _isBasedOnCategory own category) (o_categories o).

Definition _hasCategoryId (o : gobject) (id : string) : bool :=
  existsb (fun own => _isBasedOnCategoryId own id) (o_categories o).

(** An entry that [copyProperties] leaves alone: equal to the destination's
    value, or skipped by the imported metadata. *)
Definition copy_entry_skipped (E : env) (dest source : option graph)
    (props : list (property * jsval)) (entry : property * jsval) : bool :=
  let '(p, value) := entry in
  let own := map_get p props in
  jsval_eqb own value ||
  match dest with
  | Some g =>
      let md := _importMetadata g source (prop_container E p) in
      negb (isSharable md) || (isImmutable md && is_defined own)
      || (canValidate md && negb (validate md value))
  | None => false
  end.

(** The [match] argument of [hasCategoryInSet]. *)
Inductive match_mode := MExact | MInherited.

(** Membership in a [Set<GraphCategory | GraphCategoryIdLike>]: a category
    by identity, an id by string equality. *)
Definition catkey_eqb (a b : catkey) : bool :=
  match a, b with
  | CKId x, CKId y => String.eqb x y
  | CKCat x, CKCat y => category_eqb x y
  | _, _ => false
  end.

Definition key_has (k : catkey) (s : list catkey) : bool := existsb (catkey_eqb k) s.

Definition key_add (k : catkey) (s : list catkey) : list catkey :=
  if key_has k s then s else s ++ [k].

(** [isGraphCategoryIdLike(category) ? this.schema?.findCategory(category) : category] *)
Definition resolve_catkey (E : env) (o : gobject) (k : catkey) : option category :=
  match k with
  | CKId id =>
      match o_owner o with
      | Some g => findCategory (graph_schema E g) id
      | None => None
      end
  | CKCat c => Some c
  end.

(** The inner [while] loop of the inherited mode: the category and its
    [basedOn] ancestors are added to [inherited]. The loop variable is a
    category there, never an id, so its id branch is not taken. *)
Fixpoint inherit_chain (c : category) (s : list catkey) : list catkey :=
  match c with
  | Category _ _ b =>
      let s := key_add (CKCat c) s in
      match b with
      | Some b' => inherit_chain b' s
      | None => s
      end
  end.

(** The outer loop of the inherited mode over [categorySet]; [inherited]
    stays [undefined] until some member resolves to a category. *)
Fixpoint inherit_all (E : env) (o : gobject) (ks : list catkey)
    (inherited : option (list catkey)) : option (list catkey) :=
  match ks with
  | [] => inherited
  | k :: rest =>
      let inherited :=
        match resolve_catkey E o k with
        | Some c => Some (inherit_chain c (match inherited with Some s => s | None => [] end))
        | None => inherited
        end in
      inherit_all E o rest inherited
  end.

(** The final [while] loop: a category or one of its ancestors is in the set,
    by identity or by id. *)
Fixpoint chain_in_set (s : list catkey) (c : category) : bool :=
  match c with
  | Category _ id b =>
      key_has (CKCat c) s || key_has (CKId id) s ||
      match b with
      | Some b' => chain_in_set s b'
      | None => false
      end
  end.

(** [GraphObject.hasCategoryInSet]; [categorySet] is what [getCategorySet]
    (utils.ts, not among the sources) returned for the argument. *)
Definition hasCategoryInSet (E : env) (o : gobject) (categorySet : option (list catkey))
    (mode : match_mode) : bool :=
  match categorySet with
  | None => false
  | Some s =>
      let s :=
        match mode with
        | MInherited => match inherit_all E o s None with Some inh => inh | None => s end
        | MExact => s
        end in
      existsb (chain_in_set s) (o_categories o)
  end.

(* ------------------------------------------------------------------ *)
(** ** Examples *)

Example get_scenario_category_chain :
  get E0 (mkObject (Some 5) [cat_A] []) (PKProp prop_P) = Some (Num 7).
Proof. reflexivity. Qed.

Example get_owned_default : get E0 (in_G 5) (PKId "P"%string) = Some (Num 0).
Proof. reflexivity. Qed.

Example findCategory_self_first_ex : findCategory S0 "A"%string = Some cat_A.
Proof. reflexivity. Qed.

Example findCategory_descendant_ex : findCategory S0 "B"%string = Some cat_B.
Proof. reflexivity. Qed.

Example set_then_get_ex :
  let '(_, o1, ev) := set E0 (PKProp prop_P) (Some (Num 5)) ownerless in
  get E0 o1 (PKProp prop_P) = Some (Num 5) /\ ev = [PropertyChanged "P"%string].
Proof. split; reflexivity. Qed.

(* ------------------------------------------------------------------ *)
(** ** Lemmas on the container helpers *)

Lemma assoc_filter_same {B} (k : nat) (l : list (nat * B)) :
  assoc k (filter (fun e => negb (Nat.eqb k (fst e))) l) = None.
Proof.
  induction l as [|[k' b] rest IH]; simpl; [reflexivity|].
  destruct (Nat.eqb k k') eqn:Hk; simpl; [exact IH|].
  rewrite Hk. exact IH.
Qed.

Lemma map_get_delete (k : nat) (l : list (nat * jsval)) :
  map_get k (map_delete k l) = None.
Proof. unfold map_get, map_delete. now rewrite assoc_filter_same. Qed.

Lemma map_has_delete {B} (k : nat) (l : list (nat * B)) :
  map_has k (map_delete k l) = false.
Proof. unfold map_has, map_delete. now rewrite assoc_filter_same. Qed.

Lemma assoc_map_set_in {B} (k : nat) (b : B) (l l' : list (nat * B)) :
  map_set_in k b l = Some l' -> assoc k l' = Some b.
Proof.
  revert l'. induction l as [|[k' b'] rest IH]; simpl; intros l' H; [discriminate|].
  destruct (Nat.eqb k k') eqn:Hk.
  - inversion H; subst. simpl. now rewrite Hk.
  - destruct (map_set_in k b rest) eqn:Hr; simpl in H; [|discriminate].
    inversion H; subst. simpl. rewrite Hk. now apply IH.
Qed.

Lemma assoc_app_absent {B} (k : nat) (l : list (nat * B)) (b : B) :
  assoc k l = None -> assoc k (l ++ [(k, b)]) = Some b.
Proof.
  induction l as [|[k' b'] rest IH]; simpl; intros H.
  - now rewrite Nat.eqb_refl.
  - destruct (Nat.eqb k k'); [discriminate|]. now apply IH.
Qed.

Lemma map_set_in_none {B} (k : nat) (b : B) (l : list (nat * B)) :
  map_set_in k b l = None -> assoc k l = None.
Proof.
  induction l as [|[k' b'] rest IH]; simpl; intros H; [reflexivity|].
  destruct (Nat.eqb k k'); [discriminate|].
  destruct (map_set_in k b rest); [discriminate|]. now apply IH.
Qed.

(** After [Map.set(k, v)], [Map.get(k)] is [v]. *)
Lemma map_get_set (k : nat) (v : jsval) (l : list (nat * jsval)) :
  map_get k (map_set k v l) = v.
Proof.
  unfold map_get, map_set.
  destruct (map_set_in k v l) eqn:H.
  - now rewrite (assoc_map_set_in _ _ _ _ H).
  - now rewrite (assoc_app_absent _ _ _ (map_set_in_none _ _ _ H)).
Qed.

Lemma first_some_app {A B} (f : A -> option B) (l1 l2 : list A) :
  first_some f (l1 ++ l2) =
  match first_some f l1 with Some b => Some b | None => first_some f l2 end.
Proof.
  induction l1 as [|a rest IH]; simpl; [reflexivity|].
  destruct (f a); [reflexivity | exact IH].
Qed.

(** The walk up one [basedOn] chain visits [category_chain]. *)
Lemma find_in_chain_first_some (E : env) (g : graph) (p : property) (c : category) :
  find_in_chain E g p c = first_some (owning_metadata E g p) (category_chain c).
Proof.
  revert c. fix IH 1. intros [r id b].
  cbn [find_in_chain category_chain first_some].
  unfold owning_metadata at 1. cbn [category_ref].
  destruct (md_hasOwn _ p); [reflexivity|].
  destruct b as [c'|]; [apply IH | reflexivity].
Qed.

Lemma find_in_categories_first_some (E : env) (g : graph) (p : property) (cs : list category) :
  find_in_categories E g p cs = first_some (owning_metadata E g p) (flat_map category_chain cs).
Proof.
  induction cs as [|c rest IH]; simpl; [reflexivity|].
  rewrite first_some_app, find_in_chain_first_some, IH. reflexivity.
Qed.

(** Unfolds the monad's plumbing. *)
Ltac run_M :=
  cbv [bind this ret modify raise _raiseOnPropertyChanged _raiseOnCategoryChanged] in *.

(* ------------------------------------------------------------------ *)
(** ** get *)

(** C1 (code bug, failing input): in the spec's scenario, [P]'s ownerless
    default metadata has default value 0, yet [get] on an ownerless object
    with no stored value for [P] returns [undefined], not 0. *)
Lemma get_ownerless_default_counterexample :
  defaultValue (createDefaultMetadata (prop_container E0 prop_P)) = Some (Num 0) /\
  o_owner ownerless = None /\
  map_get prop_P (o_properties ownerless) = None /\
  get E0 ownerless (PKProp prop_P) = None.
Proof. repeat split; reflexivity. Qed.

(** C1 (code bug): for an ownerless object [o] and a property [p], [get]
    returns [undefined] whenever [o] has no stored value for [p], in
    particular right after a [delete] of [p] that returned [true]: the
    ownerless default metadata is not consulted, although [set] and
    [delete] resolve [p]'s metadata of [o] to that very default. *)
Theorem get_ownerless_no_value (E : env) (o : gobject) (p : property)
    (Hown : o_owner o = None) :
  (map_get p (o_properties o) = None -> get E o (PKProp p) = None) /\
  (forall o' ev, delete E (PKProp p) o = (true, o', ev) -> get E o' (PKProp p) = None) /\
  property_metadata E o p = createDefaultMetadata (prop_container E p).
Proof.
  split; [|split; [|unfold property_metadata; now rewrite Hown]].
  - intros Hnone. unfold get, _find. simpl. rewrite Hnone, Hown. reflexivity.
  - intros o' ev Hdel. unfold delete in Hdel. run_M. simpl in Hdel.
    destruct (map_has p (o_properties o)); simpl in Hdel; [|discriminate].
    destruct (isRemovable (property_metadata E o p)); simpl in Hdel; [|discriminate].
    inversion Hdel; subst. unfold get, _find, with_properties. simpl.
    rewrite map_get_delete, Hown. reflexivity.
Qed.

Lemma get_ownerless_no_value_witness :
  get E0 ownerless (PKProp prop_P) = None /\
  get E0 scenario_after_set (PKProp prop_P) = Some (Num 5) /\
  delete E0 (PKProp prop_P) scenario_after_set = (true, ownerless, [PropertyChanged "P"%string]) /\
  get E0 ownerless (PKProp prop_P) = None.
Proof.
  split; [exact (proj1 (get_ownerless_no_value E0 ownerless prop_P eq_refl) eq_refl)|].
  split; [reflexivity|]. split; [reflexivity|].
  exact (proj1 (proj2 (get_ownerless_no_value E0 scenario_after_set prop_P eq_refl))
           ownerless [PropertyChanged "P"%string] eq_refl).
Defined.

(** C2: [get] on a property resolves the object's own stored value first;
    otherwise the value held by the metadata of the first category (in the
    object's category set, each category followed by its [basedOn] chain)
    whose per-owner metadata owns the property; otherwise, when the object
    has an owner, the property's per-owner default value; and [undefined]
    when nothing resolves. *)
Theorem get_resolution_order (E : env) (o : gobject) (p : property) :
  get E o (PKProp p) = get_by_resolution_order E o p.
Proof.
  unfold get, get_by_resolution_order, _find. simpl.
  destruct (map_get p (o_properties o)) as [v|]; simpl; [now destruct (o_owner o)|].
  destruct (o_owner o) as [g|]; simpl; [|reflexivity].
  rewrite find_in_categories_first_some.
  destruct (first_some _ _) as [md|]; simpl; [|reflexivity].
  destruct (md_get md p); reflexivity.
Qed.

(* ------------------------------------------------------------------ *)
(** ** Invariants of the object methods *)

Lemma preserves_bind {A B} (P : gobject -> Prop) (m : M A) (k : A -> M B) :
  preserves P m -> (forall a, preserves P (k a)) -> preserves P (bind m k).
Proof.
  intros Hm Hk o Ho. unfold bind.
  specialize (Hm o Ho). destruct (m o) as [[a o1] e1]. simpl in Hm.
  specialize (Hk a o1 Hm). destruct (k a o1) as [[b o2] e2]. exact Hk.
Qed.

Lemma preserves_ret {A} (P : gobject -> Prop) (a : A) : preserves P (ret a).
Proof. intros o Ho. exact Ho. Qed.

Lemma preserves_this (P : gobject -> Prop) : preserves P this.
Proof. intros o Ho. exact Ho. Qed.

Lemma preserves_raise (P : gobject -> Prop) (e : event) : preserves P (raise e).
Proof. intros o Ho. exact Ho. Qed.

Lemma preserves_modify (P : gobject -> Prop) (f : gobject -> gobject) :
  (forall o, P o -> P (f o)) -> preserves P (modify f).
Proof. intros Hf o Ho. exact (Hf o Ho). Qed.

(** Splits a method into its monadic steps and branches; the [modify] steps
    are left over. *)
Ltac preserve_tac :=
  repeat match goal with
  | |- preserves _ (bind _ _) => apply preserves_bind; [|intros ?]
  | |- preserves _ this => apply preserves_this
  | |- preserves _ (ret _) => apply preserves_ret
  | |- preserves _ (raise _) => apply preserves_raise
  | |- preserves _ (_raiseOnPropertyChanged _ _) => apply preserves_raise
  | |- preserves _ (_raiseOnCategoryChanged _ _) => apply preserves_raise
  | |- preserves _ (let _ := _ in _) => cbv zeta
  | |- preserves _ (if ?b then _ else _) => destruct b
  | |- preserves _ (match ?x with _ => _ end) => destruct x
  end.

Lemma Forall_map_set {B} (P : nat * B -> Prop) (k : nat) (b : B) (l : list (nat * B)) :
  Forall P l -> P (k, b) -> Forall P (map_set k b l).
Proof.
  intros Hl Hkb. unfold map_set.
  assert (Hin : forall l', map_set_in k b l = Some l' -> Forall P l').
  { clear -Hl Hkb. induction Hl as [|[k' b'] rest Hx Hrest IH]; simpl; intros l' H;
      [discriminate|].
    destruct (Nat.eqb k k') eqn:Hk.
    - apply Nat.eqb_eq in Hk. subst. inversion H; subst. now constructor.
    - destruct (map_set_in k b rest) as [r|]; simpl in H; [|discriminate].
      inversion H; subst. constructor; [exact Hx | now apply IH]. }
  destruct (map_set_in k b l) eqn:H; [now apply Hin|].
  apply Forall_app. split; [exact Hl | now constructor].
Qed.

Lemma Forall_map_delete {B} (P : nat * B -> Prop) (k : nat) (l : list (nat * B)) :
  Forall P l -> Forall P (map_delete k l).
Proof.
  intros Hl. apply Forall_forall. intros x Hx.
  apply filter_In in Hx. destruct Hx as [Hx _].
  exact (proj1 (Forall_forall P l) Hl x Hx).
Qed.

Lemma delete_no_unset (E : env) (key : propkey) : preserves no_unset (delete E key).
Proof.
  unfold delete. preserve_tac.
  apply preserves_modify. intros o Ho. now apply Forall_map_delete.
Qed.

Lemma set_no_unset (E : env) (key : propkey) (value : jsval) : preserves no_unset (set E key value).
Proof.
  unfold set. destruct value as [z|].
  - preserve_tac. apply preserves_modify. intros o Ho.
    apply Forall_map_set; [exact Ho | discriminate].
  - apply preserves_bind; [apply delete_no_unset | intros; apply preserves_ret].
Qed.

Lemma addCategory_no_unset (c : category) : preserves no_unset (addCategory c).
Proof. unfold addCategory. preserve_tac. apply preserves_modify. now intros o Ho. Qed.

Lemma deleteCategory_no_unset (E : env) (k : catkey) : preserves no_unset (deleteCategory E k).
Proof. unfold deleteCategory. preserve_tac. apply preserves_modify. now intros o Ho. Qed.

Lemma copyCategories_no_unset (other : gobject) : preserves no_unset (copyCategories other).
Proof.
  unfold copyCategories. destruct (o_categories other) as [|c cs]; [apply preserves_ret|].
  generalize false. generalize (c :: cs). clear.
  induction l as [|c rest IH]; intros changed; simpl; preserve_tac; try apply IH.
  apply preserves_modify. now intros o Ho.
Qed.

Lemma copyProperties_no_unset (E : env) (other : gobject) :
  no_unset other -> preserves no_unset (copyProperties E other).
Proof.
  unfold copyProperties, no_unset. intros Hother.
  destruct (o_properties other) as [|e es]; [apply preserves_ret|].
  generalize false. generalize (o_owner other). revert Hother. generalize (e :: es). clear.
  induction l as [|[p v] rest IH]; intros Hl src changed; simpl; [apply preserves_ret|].
  inversion Hl as [|x y Hv Hrest]; subst. simpl in Hv.
  preserve_tac; try (apply IH; exact Hrest).
  apply preserves_modify. intros o Ho. apply Forall_map_set; [exact Ho | exact Hv].
Qed.

Lemma setOwner_no_unset (owner : option graph) : preserves no_unset (_setOwner owner).
Proof. unfold _setOwner. preserve_tac. apply preserves_modify. now intros o Ho. Qed.

Lemma mergeFrom_no_unset (E : env) (other : gobject) :
  no_unset other -> preserves no_unset (_mergeFrom E other).
Proof.
  intros H. unfold _mergeFrom.
  apply preserves_bind; [now apply copyProperties_no_unset | intros c1].
  apply preserves_bind; [apply copyCategories_no_unset | intros c2].
  apply preserves_ret.
Qed.

Ltac owner_tac :=
  preserve_tac; try (apply preserves_modify; intros ? H; exact H).

Lemma delete_owned (E : env) (key : propkey) (g : graph) : preserves (owned_by g) (delete E key).
Proof. unfold delete. owner_tac. Qed.

Lemma set_owned (E : env) (key : propkey) (value : jsval) (g : graph) :
  preserves (owned_by g) (set E key value).
Proof.
  unfold set. destruct value as [z|]; [owner_tac|].
  apply preserves_bind; [apply delete_owned | intros; apply preserves_ret].
Qed.

Lemma addCategory_owned (c : category) (g : graph) : preserves (owned_by g) (addCategory c).
Proof. unfold addCategory. owner_tac. Qed.

Lemma deleteCategory_owned (E : env) (k : catkey) (g : graph) :
  preserves (owned_by g) (deleteCategory E k).
Proof. unfold deleteCategory. owner_tac. Qed.

Lemma copyCategories_owned (other : gobject) (g : graph) :
  preserves (owned_by g) (copyCategories other).
Proof.
  unfold copyCategories. destruct (o_categories other) as [|c cs]; [apply preserves_ret|].
  generalize false. generalize (c :: cs). clear.
  induction l as [|c rest IH]; intros changed; simpl; owner_tac; apply IH.
Qed.

Lemma copyProperties_owned (E : env) (other : gobject) (g : graph) :
  preserves (owned_by g) (copyProperties E other).
Proof.
  unfold copyProperties. destruct (o_properties other) as [|e es]; [apply preserves_ret|].
  generalize false. generalize (o_owner other). generalize (e :: es). clear.
  induction l as [|[p v] rest IH]; intros src changed; simpl; owner_tac; apply IH.
Qed.

(** [_setOwner] assigns only an object that has no owner yet. *)
Lemma setOwner_owned (owner : option graph) (g : graph) :
  preserves (owned_by g) (_setOwner owner).
Proof.
  intros o Ho. unfold _setOwner, owned_by in *. run_M. rewrite Ho.
  destruct owner; exact Ho.
Qed.

Lemma mergeFrom_owned (E : env) (other : gobject) (g : graph) :
  preserves (owned_by g) (_mergeFrom E other).
Proof.
  unfold _mergeFrom.
  apply preserves_bind; [apply copyProperties_owned | intros c1].
  apply preserves_bind; [apply copyCategories_owned | intros c2].
  apply preserves_ret.
Qed.

(* ------------------------------------------------------------------ *)
(** ** Lemmas on the world of objects *)

Lemma Forall_replace_nth {A} (P : A -> Prop) (l : list A) (i : nat) (a : A) :
  Forall P l -> P a -> Forall P (replace_nth l i a).
Proof.
  revert i. induction l as [|x rest IH]; intros i Hl Ha; [constructor|].
  inversion Hl; subst. destruct i; simpl; constructor; auto.
Qed.

Lemma Forall_nth_error {A} (P : A -> Prop) (l : list A) (i : nat) (a : A) :
  Forall P l -> nth_error l i = Some a -> P a.
Proof.
  intros Hl Hi. apply nth_error_In in Hi. exact (proj1 (Forall_forall P l) Hl a Hi).
Qed.

Lemma on_object_Forall {A} (P : gobject -> Prop) (w : world) (i : nat) (m : M A) :
  preserves P m -> Forall P w -> Forall P (on_object w i m).
Proof.
  intros Hm Hw. unfold on_object.
  destruct (nth_error w i) as [o|] eqn:Hi; [|exact Hw].
  specialize (Hm o (Forall_nth_error P w i o Hw Hi)).
  destruct (m o) as [[a o'] ev]. apply Forall_replace_nth; assumption.
Qed.

Lemma with_other_Forall {A} (P : gobject -> Prop) (w : world) (i j : nat) (m : gobject -> M A) :
  (forall other, P other -> preserves P (m other)) -> Forall P w -> Forall P (with_other w i j m).
Proof.
  intros Hm Hw. unfold with_other.
  destruct (nth_error w j) as [other|] eqn:Hj; [|exact Hw].
  apply on_object_Forall; [|exact Hw]. apply Hm. exact (Forall_nth_error P w j other Hw Hj).
Qed.

Lemma nth_error_replace_nth_same {A} (l : list A) (i : nat) (a b : A) :
  nth_error l i = Some b -> nth_error (replace_nth l i a) i = Some a.
Proof.
  revert i. induction l as [|x rest IH]; intros i H; [destruct i; discriminate|].
  destruct i; simpl in *; [reflexivity | now apply IH].
Qed.

Lemma nth_error_replace_nth_other {A} (l : list A) (i j : nat) (a : A) :
  i <> j -> nth_error (replace_nth l i a) j = nth_error l j.
Proof.
  revert i j. induction l as [|x rest IH]; intros i j H; [destruct j; reflexivity|].
  destruct i, j; simpl; try reflexivity; [congruence|]. apply IH. congruence.
Qed.

Lemma on_object_at_index {A} (P : gobject -> Prop) (w : world) (i j : nat) (m : M A) :
  preserves P m -> at_index P w i -> at_index P (on_object w j m) i.
Proof.
  intros Hm [o [Hi Ho]]. unfold on_object.
  destruct (nth_error w j) as [o1|] eqn:Hj; [|exists o; now split].
  destruct (Nat.eq_dec j i) as [->|Hne].
  - rewrite Hi in Hj. inversion Hj; subst. specialize (Hm o1 Ho).
    destruct (m o1) as [[a o'] ev]. exists o'. split; [|exact Hm].
    exact (nth_error_replace_nth_same w i o' o1 Hi).
  - destruct (m o1) as [[a o'] ev]. exists o.
    rewrite nth_error_replace_nth_other by exact Hne. now split.
Qed.

Lemma with_other_at_index {A} (P : gobject -> Prop) (w : world) (i j k : nat) (m : gobject -> M A) :
  (forall other, preserves P (m other)) -> at_index P w k -> at_index P (with_other w i j m) k.
Proof.
  intros Hm H. unfold with_other.
  destruct (nth_error w j); [now apply on_object_at_index | exact H].
Qed.

Lemma new_object_no_unset (owner : option graph) (c : option category) :
  no_unset (new_object owner c).
Proof.
  unfold new_object. destruct c as [c|]; [|constructor].
  pose proof (addCategory_no_unset c (mkObject owner [] []) (Forall_nil _)) as H.
  destruct (addCategory c (mkObject owner [] [])) as [[u o'] ev]. exact H.
Qed.

Lemma world_step_no_unset (E : env) (w : world) (op : world_op) :
  Forall no_unset w -> Forall no_unset (world_step E w op).
Proof.
  intros Hw. destruct op; simpl.
  - apply Forall_app. split; [exact Hw | constructor; [apply new_object_no_unset | constructor]].
  - apply on_object_Forall; [apply set_no_unset | exact Hw].
  - apply on_object_Forall; [apply delete_no_unset | exact Hw].
  - apply on_object_Forall; [apply addCategory_no_unset | exact Hw].
  - apply on_object_Forall; [apply deleteCategory_no_unset | exact Hw].
  - apply with_other_Forall; [apply copyProperties_no_unset | exact Hw].
  - apply with_other_Forall; [intros; apply copyCategories_no_unset | exact Hw].
  - apply with_other_Forall; [apply mergeFrom_no_unset | exact Hw].
  - apply on_object_Forall; [apply setOwner_no_unset | exact Hw].
Qed.

Lemma run_world_no_unset (E : env) (ops : list world_op) (w : world) :
  Forall no_unset w -> Forall no_unset (run_world E w ops).
Proof.
  unfold run_world. revert w.
  induction ops as [|op rest IH]; intros w Hw; simpl; [exact Hw|].
  apply IH. now apply world_step_no_unset.
Qed.

(** C3: [set(P, undefined)] has the same effect on the object's state and
    events as [delete(P)], for any key; and from an empty world, after any
    sequence of public operations on any objects (construction, [set],
    [delete], category changes, copies, merges, [_setOwner]), no object
    stores the unset sentinel as a property value. *)
Theorem set_unset_is_delete (E : env) (key : propkey) (o : gobject) :
  effect (set E key None) o = effect (delete E key) o /\
  (forall ops, Forall no_unset (run_world E [] ops)).
Proof.
  split.
  - unfold effect, set. run_M.
    destruct (delete E key o) as [[b o'] ev]. now rewrite app_nil_r.
  - intros ops. apply run_world_no_unset. constructor.
Qed.

Lemma world_step_owner (E : env) (w : world) (op : world_op) (i : nat) (g : graph) :
  at_index (owned_by g) w i -> at_index (owned_by g) (world_step E w op) i.
Proof.
  intros Hw. destruct op; simpl.
  - destruct Hw as [o [Hi Ho]]. exists o. split; [|exact Ho].
    rewrite nth_error_app1; [exact Hi|]. apply nth_error_Some. congruence.
  - apply on_object_at_index; [apply set_owned | exact Hw].
  - apply on_object_at_index; [apply delete_owned | exact Hw].
  - apply on_object_at_index; [apply addCategory_owned | exact Hw].
  - apply on_object_at_index; [apply deleteCategory_owned | exact Hw].
  - apply with_other_at_index; [intros; apply copyProperties_owned | exact Hw].
  - apply with_other_at_index; [intros; apply copyCategories_owned | exact Hw].
  - apply with_other_at_index; [intros; apply mergeFrom_owned | exact Hw].
  - apply on_object_at_index; [apply setOwner_owned | exact Hw].
Qed.

(** C9: once object [i] has owner [g], every later sequence of operations
    (including [_setOwner] with another graph) leaves its owner [g]. *)
Theorem owner_write_once (E : env) (w : world) (ops : list world_op) (i : nat)
    (o : gobject) (g : graph) (Hi : nth_error w i = Some o) (Hg : o_owner o = Some g) :
  exists o', nth_error (run_world E w ops) i = Some o' /\ o_owner o' = Some g.
Proof.
  assert (H : at_index (owned_by g) w i) by (exists o; now split).
  unfold run_world. clear Hi Hg. revert w H.
  induction ops as [|op rest IH]; intros w H; simpl; [exact H|].
  apply IH. now apply world_step_owner.
Qed.

Lemma owner_write_once_witness :
  nth_error [in_G 1] 0 = Some (in_G 1) /\ o_owner (in_G 1) = Some 1 /\
  exists o', nth_error (run_world E0 [in_G 1] owner_ops) 0 = Some o' /\ o_owner o' = Some 1.
Proof.
  split; [reflexivity|]. split; [reflexivity|].
  exact (owner_write_once E0 [in_G 1] owner_ops 0 (in_G 1) 1 eq_refl eq_refl).
Defined.

(* ------------------------------------------------------------------ *)
(** ** set and delete on a property *)

Lemma set_property_eq (E : env) (o : gobject) (p : property) (v : jsnum) :
  set E (PKProp p) (Some v) o =
  if jsval_eqb (Some v) (map_get p (o_properties o)) then (tt, o, []) else
  if is_defined (map_get p (o_properties o)) && isImmutable (property_metadata E o p)
  then (tt, o, []) else
  if canValidate (property_metadata E o p) && negb (validate (property_metadata E o p) (Some v))
  then (tt, o, [])
  else (tt, with_properties o (map_set p (Some v) (o_properties o)), [PropertyChanged (prop_id E p)]).
Proof.
  cbv beta iota zeta delta [set bind this ret modify raise _raiseOnPropertyChanged resolve_property].
  destruct (jsval_eqb _ _); [reflexivity|].
  destruct (_ && isImmutable _); [reflexivity|].
  destruct (_ && negb _); reflexivity.
Qed.

Lemma delete_property_eq (E : env) (o : gobject) (p : property) :
  delete E (PKProp p) o =
  if negb (map_has p (o_properties o)) then (false, o, []) else
  if negb (isRemovable (property_metadata E o p)) then (false, o, [])
  else (true, with_properties o (map_delete p (o_properties o)), [PropertyChanged (prop_id E p)]).
Proof.
  cbv beta iota zeta delta [delete bind this ret modify raise _raiseOnPropertyChanged resolve_property].
  destruct (negb (map_has _ _)); [reflexivity|].
  destruct (negb (isRemovable _)); reflexivity.
Qed.

(** C4 (counterexample): [P] is mutable and has no validator, the object
    already stores 5 for [P], and [set(P, 5)] raises no property-changed
    event, although neither rejection condition of the claim holds. *)
Lemma set_rejection_counterexample :
  let o := mkObject None [] [(prop_P, Some (Num 5))] in
  isImmutable (property_metadata E0 o prop_P) = false /\
  canValidate (property_metadata E0 o prop_P) = false /\
  set E0 (PKProp prop_P) (Some (Num 5)) o = (tt, o, []).
Proof. repeat split; reflexivity. Qed.

(** C4 (amended): [set(P, v)] with [v] not the sentinel leaves the object
    unchanged and raises no event when the object already stores exactly [v],
    or stores a value and the resolved metadata is immutable, or the metadata
    has a validator that rejects [v]; otherwise it stores [v] for [P] (other
    entries untouched) and raises one property-changed event with [P]'s id. *)
Theorem set_rejects_or_stores (E : env) (o : gobject) (p : property) (v : jsnum) :
  let ownValue := map_get p (o_properties o) in
  let md := property_metadata E o p in
  ((jsval_eqb (Some v) ownValue = true
    \/ (is_defined ownValue = true /\ isImmutable md = true)
    \/ (canValidate md = true /\ validate md (Some v) = false)) ->
   set E (PKProp p) (Some v) o = (tt, o, [])) /\
  (jsval_eqb (Some v) ownValue = false ->
   (is_defined ownValue = false \/ isImmutable md = false) ->
   (canValidate md = false \/ validate md (Some v) = true) ->
   set E (PKProp p) (Some v) o =
     (tt, with_properties o (map_set p (Some v) (o_properties o)), [PropertyChanged (prop_id E p)])
   /\ map_get p (map_set p (Some v) (o_properties o)) = Some v).
Proof.
  intros ownValue md. rewrite set_property_eq. subst ownValue md. split.
  - intros [H|[[H1 H2]|[H1 H2]]].
    + now rewrite H.
    + destruct (jsval_eqb _ _); [reflexivity|]. now rewrite H1, H2.
    + destruct (jsval_eqb _ _); [reflexivity|].
      destruct (_ && _); [reflexivity|]. now rewrite H1, H2.
  - intros H1 H2 H3. rewrite H1. split; [|apply map_get_set].
    destruct H2 as [H2|H2]; rewrite H2; [|rewrite andb_false_r];
      (destruct H3 as [H3|H3]; rewrite H3; [|rewrite andb_false_r]); reflexivity.
Qed.

Lemma set_rejects_or_stores_witness :
  set E0 (PKProp prop_Q) (Some (Num 8)) (mkObject (Some 1) [] [(prop_Q, Some (Num 3))])
    = (tt, mkObject (Some 1) [] [(prop_Q, Some (Num 3))], []) /\
  set E0 (PKProp prop_R) (Some (Num 4)) (in_G 1)
    = (tt, mkObject (Some 1) [] [(prop_R, Some (Num 4))], [PropertyChanged "R"%string]).
Proof.
  split.
  - apply (proj1 (set_rejects_or_stores E0 (mkObject (Some 1) [] [(prop_Q, Some (Num 3))]) prop_Q (Num 8))).
    right. left. split; reflexivity.
  - exact (proj1 (proj2 (set_rejects_or_stores E0 (in_G 1) prop_R (Num 4))
                    eq_refl (or_introl eq_refl) (or_intror eq_refl))).
Defined.




(** C5: [delete(P)] returns [false] and leaves the object unchanged, with no
    event, when the object has no stored entry for [P] or the resolved
    metadata marks [P] non-removable; otherwise it removes [P]'s entry,
    raises one property-changed event and returns [true]. *)
Theorem delete_guards (E : env) (o : gobject) (p : property) :
  ((map_has p (o_properties o) = false \/ isRemovable (property_metadata E o p) = false) ->
   delete E (PKProp p) o = (false, o, [])) /\
  (map_has p (o_properties o) = true -> isRemovable (property_metadata E o p) = true ->
   delete E (PKProp p) o =
     (true, with_properties o (map_delete p (o_properties o)), [PropertyChanged (prop_id E p)])
   /\ map_has p (map_delete p (o_properties o)) = false).
Proof.
  rewrite delete_property_eq. split.
  - intros [H|H]; rewrite H; [reflexivity|]. now destruct (map_has _ _).
  - intros H1 H2. rewrite H1, H2. split; [reflexivity | apply map_has_delete].
Qed.

Lemma delete_guards_witness :
  delete E0 (PKProp prop_P) ownerless = (false, ownerless, []) /\
  delete E0 (PKProp prop_P) (mkObject None [] [(prop_P, Some (Num 5))])
    = (true, ownerless, [PropertyChanged "P"%string]) /\
  map_has prop_P (map_delete prop_P [(prop_P, Some (Num 5))]) = false.
Proof.
  split; [exact (proj1 (delete_guards E0 ownerless prop_P) (or_introl eq_refl))|].
  exact (proj2 (delete_guards E0 (mkObject None [] [(prop_P, Some (Num 5))]) prop_P) eq_refl eq_refl).
Defined.

(* ------------------------------------------------------------------ *)
(** ** Schema lookup *)

Lemma allSchemas_eq (s : schema) :
  allSchemas s = s :: flat_map allSchemas (schema_children s).
Proof.
  destruct s as [n cs ps [ch|]]; simpl; [|reflexivity].
  f_equal.
Qed.

Lemma first_some_all_none {A B} (f : A -> option B) (l : list A) :
  (forall a, In a l -> f a = None) -> first_some f l = None.
Proof.
  induction l as [|a rest IH]; simpl; intros H; [reflexivity|].
  rewrite (H a (or_introl eq_refl)). apply IH. intros b Hb. apply H. now right.
Qed.

(** C6: [allSchemas] lists a schema, then the [allSchemas] of each child in
    registration order (depth-first); [findCategory] returns the first match
    in that order; so a category the schema defines itself is returned
    before any descendant's, and with no match anywhere the result is "not
    found". *)
Theorem findCategory_self_first (s : schema) (id : string) :
  allSchemas s = s :: flat_map allSchemas (schema_children s) /\
  findCategory s id = first_some (fun sc => schema_find_own_category sc id) (allSchemas s) /\
  (forall c, schema_find_own_category s id = Some c -> findCategory s id = Some c) /\
  ((forall sc, In sc (allSchemas s) -> schema_find_own_category sc id = None) ->
   findCategory s id = None).
Proof.
  split; [apply allSchemas_eq|]. split; [reflexivity|]. split.
  - intros c Hc. unfold findCategory. rewrite allSchemas_eq. simpl. now rewrite Hc.
  - intros H. apply first_some_all_none. exact H.
Qed.

Lemma findCategory_self_first_witness :
  schema_find_own_category S0 "A"%string = Some cat_A /\
  schema_find_own_category
    (Schema "child"%string (Some [Category 3 "A"%string None; cat_B]) (Some [prop_Q; prop_R]) None)
    "A"%string = Some (Category 3 "A"%string None) /\
  findCategory S0 "A"%string = Some cat_A /\
  findCategory S0 "Z"%string = None.
Proof.
  split; [reflexivity|]. split; [reflexivity|]. split.
  - exact (proj1 (proj2 (proj2 (findCategory_self_first S0 "A"%string))) cat_A eq_refl).
  - apply (proj2 (proj2 (proj2 (findCategory_self_first S0 "Z"%string)))).
    intros sc Hsc. simpl in Hsc.
    repeat (destruct Hsc as [<-|Hsc]; [reflexivity|]). destruct Hsc.
Defined.

(* ------------------------------------------------------------------ *)
(** ** Categories of an object *)

(** C7 (code_bug): [deleteCategory] with an id that does not resolve (no
    owner, so no schema; or no category with that id in the owner's schema)
    returns [undefined], not [false], and leaves the object unchanged. *)
Theorem deleteCategory_unresolved_id_undefined :
  deleteCategory E0 (CKId "B"%string) (mkObject None [cat_B] [])
    = (DelUndefined, mkObject None [cat_B] [], []) /\
  deleteCategory E0 (CKId "X"%string) (mkObject (Some 1) [cat_A] [])
    = (DelUndefined, mkObject (Some 1) [cat_A] [], []).
Proof. split; reflexivity. Qed.

Lemma addCategory_idempotent (c : category) (o : gobject) :
  set_has c (o_categories o) = true -> addCategory c o = (tt, o, []).
Proof. intros H. unfold addCategory. run_M. now rewrite H. Qed.

Lemma deleteCategory_absent (E : env) (c : category) (o : gobject) :
  set_has c (o_categories o) = false -> deleteCategory E (CKCat c) o = (DelBool false, o, []).
Proof. intros H. unfold deleteCategory. run_M. now rewrite H. Qed.

(* ------------------------------------------------------------------ *)
(** ** copyProperties *)

Lemma copy_loop_fold (E : env) (source : option graph) (entries : list (property * jsval))
    (owner : option graph) (cats : list category) (props : list (property * jsval))
    (changed : bool) (evs0 : list event) :
  (let '(c, o', ev) := copy_properties_loop E source entries changed (mkObject owner cats props) in
   (c, o', evs0 ++ ev)) =
  (let '(props', ch, evs) :=
     fold_left (copy_entry_by_claim E owner source) entries (props, changed, evs0) in
   (ch, mkObject owner cats props', evs)).
Proof.
  revert props changed evs0.
  induction entries as [|[p v] rest IH]; intros props changed evs0; simpl.
  - now rewrite app_nil_r.
  - run_M. cbn [o_properties o_owner].
    destruct (jsval_eqb (map_get p props) v); cbn beta iota;
      [|destruct owner as [g|]; cbn beta iota;
        [destruct (negb _ || _ || _); cbn beta iota | cbn [orb]]].
    all: first
      [ (* the entry is passed over *)
        specialize (IH props changed evs0);
        destruct (copy_properties_loop E source rest changed _) as [[c o] ev];
        cbn [app] in *; exact IH
      | (* the entry is written *)
        specialize (IH (map_set p v props) true (evs0 ++ [PropertyChanged (prop_id E p)]));
        unfold with_properties; cbn [o_owner o_categories o_properties];
        destruct (copy_properties_loop E source rest true _) as [[c o] ev];
        rewrite <- app_assoc in IH; cbn [app] in *; exact IH ].
Qed.

Lemma copy_fold_changed (E : env) (dest source : option graph) (entries : list (property * jsval))
    (props : list (property * jsval)) (changed : bool) (evs : list event) :
  (changed = true <-> evs <> []) ->
  let '(_, ch, evs') := fold_left (copy_entry_by_claim E dest source) entries (props, changed, evs) in
  (ch = true <-> evs' <> []).
Proof.
  revert props changed evs.
  induction entries as [|[p v] rest IH]; intros props changed evs H; simpl; [exact H|].
  destruct (jsval_eqb _ _); [now apply IH|].
  destruct (_ || _ || _); [now apply IH|].
  apply IH. split; [intros _; now destruct evs | reflexivity].
Qed.

Lemma assoc_map_set_other {B} (k k' : nat) (b : B) (l : list (nat * B)) :
  k <> k' -> assoc k (map_set k' b l) = assoc k l.
Proof.
  intros Hne. unfold map_set.
  assert (Hin : forall l', map_set_in k' b l = Some l' -> assoc k l' = assoc k l).
  { induction l as [|[k0 b0] rest IH]; simpl; intros l' H; [discriminate|].
    destruct (Nat.eqb k' k0) eqn:H0.
    - apply Nat.eqb_eq in H0. subst. inversion H; subst. simpl.
      apply Nat.eqb_neq in Hne. now rewrite Hne.
    - destruct (map_set_in k' b rest) as [r|]; simpl in H; [|discriminate].
      inversion H; subst. simpl. destruct (Nat.eqb k k0); [reflexivity|]. now apply IH. }
  destruct (map_set_in k' b l) eqn:H; [now apply Hin|].
  clear Hin H. induction l as [|[k0 b0] rest IH]; simpl.
  - apply Nat.eqb_neq in Hne. now rewrite Hne.
  - destruct (Nat.eqb k k0); [reflexivity | exact IH].
Qed.

Lemma map_get_set_other (k k' : nat) (v : jsval) (l : list (nat * jsval)) :
  k <> k' -> map_get k (map_set k' v l) = map_get k l.
Proof. intros H. unfold map_get. now rewrite assoc_map_set_other. Qed.

(** An immutable property with a value present at the destination keeps its
    value through every entry of the fold. *)
Lemma copy_fold_keeps_immutable (E : env) (g : graph) (source : option graph) (p : property)
    (v : jsnum) (entries : list (property * jsval)) (props : list (property * jsval))
    (changed : bool) (evs : list event) :
  isImmutable (_importMetadata g source (prop_container E p)) = true ->
  map_get p props = Some v ->
  let '(props', _, _) := fold_left (copy_entry_by_claim E (Some g) source) entries (props, changed, evs) in
  map_get p props' = Some v.
Proof.
  intros Himm. revert props changed evs.
  induction entries as [|[p' v'] rest IH]; intros props changed evs Hv; simpl; [exact Hv|].
  destruct (jsval_eqb _ _); [now apply IH|].
  destruct (Nat.eq_dec p p') as [<-|Hne].
  - rewrite Himm, Hv. simpl. rewrite orb_true_r. simpl. now apply IH.
  - destruct (_ || _ || _); [now apply IH|]. apply IH.
    rewrite map_get_set_other by exact Hne. exact Hv.
Qed.

(** C8: [Y.copyProperties(X)] is the claim's entry-by-entry copy: entries of
    [X] whose value equals [Y]'s are passed over; an entry is skipped when the
    metadata from the owner-import step is not sharable, immutable with a
    value present in [Y], or rejects the value; otherwise [Y]'s value is
    overwritten and a property-changed event raised. The result is [true]
    exactly when some value was written (an event was raised). In
    particular, an immutable property that [Y] already stores keeps [Y]'s
    value. *)
Theorem copyProperties_as_claimed (E : env) (other o : gobject) :
  copyProperties E other o = copyProperties_by_claim E other o /\
  (fst (fst (copyProperties E other o)) = true <-> snd (copyProperties E other o) <> []) /\
  (forall (g : graph) (p : property) (v : jsnum),
     o_owner o = Some g ->
     isImmutable (_importMetadata g (o_owner other) (prop_container E p)) = true ->
     map_get p (o_properties o) = Some v ->
     map_get p (o_properties (snd (fst (copyProperties E other o)))) = Some v).
Proof.
  assert (Heq : copyProperties E other o = copyProperties_by_claim E other o).
  { destruct o as [ow cs ps]. unfold copyProperties, copyProperties_by_claim.
    cbn [o_owner o_categories o_properties].
    destruct (o_properties other) as [|e es]; [reflexivity|].
    pose proof (copy_loop_fold E (o_owner other) (e :: es) ow cs ps false []) as H.
    destruct (copy_properties_loop _ _ _ _ _) as [[c o'] ev]. exact H. }
  split; [exact Heq|]. rewrite Heq. unfold copyProperties_by_claim. split.
  - assert (H0 : false = true <-> ([] : list event) <> []).
    { split; intros H; [discriminate | exfalso; now apply H]. }
    pose proof (copy_fold_changed E (o_owner o) (o_owner other) (o_properties other)
                  (o_properties o) false [] H0) as H.
    destruct (fold_left _ _ _) as [[props ch] evs]. exact H.
  - intros g p v Hown Himm Hv. rewrite Hown.
    pose proof (copy_fold_keeps_immutable E g (o_owner other) p v (o_properties other)
                  (o_properties o) false [] Himm Hv) as H.
    destruct (fold_left _ _ _) as [[props ch] evs]. exact H.
Qed.

Lemma copyProperties_as_claimed_witness :
  map_get prop_Q (o_properties (snd (fst (copyProperties E0 copy_X copy_Y)))) = Some (Num 9) /\
  copyProperties E0 copy_X copy_Y = (false, copy_Y, []) /\
  copyProperties E0 copy_Y (in_G 1) = (true, mkObject (Some 1) [] [(prop_Q, Some (Num 9))],
                                       [PropertyChanged "Q"%string]).
Proof.
  split; [exact (proj2 (proj2 (copyProperties_as_claimed E0 copy_X copy_Y))
                   2 prop_Q (Num 9) eq_refl eq_refl eq_refl)|].
  split; reflexivity.
Defined.

(* ------------------------------------------------------------------ *)
(** ** Further properties of schema lookup *)

Lemma first_some_some {A B} (f : A -> option B) (l : list A) (b : B) :
  first_some f l = Some b -> exists a, In a l /\ f a = Some b.
Proof.
  induction l as [|a rest IH]; simpl; intros H; [discriminate|].
  destruct (f a) eqn:Ha.
  - inversion H; subst. exists a. now split; [left|].
  - destruct (IH H) as [a' [Hin Ha']]. exists a'. now split; [right|].
Qed.

Lemma hasSchema_eq (s : schema) (name : string) :
  hasSchema s name =
  String.eqb name (schema_name s) || existsb (fun c => hasSchema c name) (schema_children s).
Proof.
  destruct s as [n cs ps [l|]]; simpl; [|now rewrite orb_false_r].
  f_equal; try (induction l as [|c rest IH]; simpl; [reflexivity|]; now rewrite IH).
Qed.

Definition schema_nested_ind (P : schema -> Prop)
    (H : forall n cs ps ch, Forall P (match ch with Some l => l | None => [] end) ->
         P (Schema n cs ps ch)) :
  forall s, P s :=
  fix F s :=
    match s with
    | Schema n cs ps ch =>
        H n cs ps ch
          (match ch as o return Forall P (match o with Some l => l | None => [] end) with
           | Some l =>
               (fix G (l : list schema) : Forall P l :=
                  match l with
                  | [] => Forall_nil P
                  | c :: rest => Forall_cons c (F c) (G rest)
                  end) l
           | None => Forall_nil P
           end)
    end.

(** [hasSchema] with a name holds exactly when this schema or one of its
    descendants, as [allSchemas] lists them, has that name. *)
Theorem hasSchema_allSchemas (s : schema) (name : string) :
  hasSchema s name = true <-> In name (map schema_name (allSchemas s)).
Proof.
  induction s as [n cs ps ch IH] using schema_nested_ind.
  rewrite hasSchema_eq, allSchemas_eq. cbn [map In schema_name schema_children].
  rewrite orb_true_iff, String.eqb_eq.
  assert (Hl : existsb (fun c => hasSchema c name) (match ch with Some l => l | None => [] end) = true <->
               In name (map schema_name (flat_map allSchemas (match ch with Some l => l | None => [] end)))).
  { induction IH as [|c rest Hc _ IHl]; cbn [existsb flat_map].
    - split; [discriminate | intros []].
    - rewrite orb_true_iff, map_app, in_app_iff, Hc, IHl. reflexivity. }
  rewrite Hl. split; intros [H|H]; auto.
Qed.

(** [findProperty] returns the first property with the id in [allSchemas]
    order (so a schema's own property shadows its descendants'); what it
    returns has the requested id and is registered in one of those schemas;
    with no match it returns "not found". *)
Theorem findProperty_first_match (E : env) (s : schema) (id : string) :
  (forall p, schema_find_own_property E s id = Some p -> findProperty E s id = Some p) /\
  (forall p, findProperty E s id = Some p ->
     prop_id E p = id /\
     exists sc ps, In sc (allSchemas s) /\ schema_properties sc = Some ps /\ In p ps) /\
  ((forall sc, In sc (allSchemas s) -> schema_find_own_property E sc id = None) ->
   findProperty E s id = None).
Proof.
  split; [|split].
  - intros p Hp. unfold findProperty. rewrite allSchemas_eq. simpl. now rewrite Hp.
  - intros p Hp. apply first_some_some in Hp. destruct Hp as [sc [Hin Hsc]].
    unfold schema_find_own_property, property_collection_get in Hsc.
    destruct (schema_properties sc) as [ps|] eqn:Hps; [|discriminate].
    apply find_some in Hsc. destruct Hsc as [Hp Hid].
    split; [now apply String.eqb_eq|]. exists sc, ps. auto.
  - intros H. apply first_some_all_none. exact H.
Qed.

Lemma findProperty_first_match_witness :
  findProperty E0 S0 "P"%string = Some prop_P /\
  prop_id E0 prop_R = "R"%string /\
  findProperty E0 S0 "none"%string = None.
Proof.
  split; [exact (proj1 (findProperty_first_match E0 S0 "P"%string) prop_P eq_refl)|].
  split; [exact (proj1 (proj1 (proj2 (findProperty_first_match E0 S0 "R"%string)) prop_R eq_refl))|].
  apply (proj2 (proj2 (findProperty_first_match E0 S0 "none"%string))).
  intros sc Hsc. simpl in Hsc.
  repeat (destruct Hsc as [<-|Hsc]; [reflexivity|]). destruct Hsc.
Defined.

(** What [findCategory] returns has the requested id and is registered in
    this schema or one of its descendants. *)
Theorem findCategory_sound (s : schema) (id : string) (c : category)
    (H : findCategory s id = Some c) :
  category_id c = id /\
  exists sc cs, In sc (allSchemas s) /\ schema_categories sc = Some cs /\ In c cs.
Proof.
  apply first_some_some in H. destruct H as [sc [Hin Hsc]].
  unfold schema_find_own_category, category_collection_get in Hsc.
  destruct (schema_categories sc) as [cs|] eqn:Hcs; [|discriminate].
  apply find_some in Hsc. destruct Hsc as [Hc Hid].
  split; [now apply String.eqb_eq|]. exists sc, cs. auto.
Qed.

Lemma findCategory_sound_witness :
  findCategory S0 "B"%string = Some cat_B /\ category_id cat_B = "B"%string.
Proof.
  split; [reflexivity|]. exact (proj1 (findCategory_sound S0 "B"%string cat_B eq_refl)).
Defined.

(** Every category [findCategories] yields has one of the requested ids, and
    for a single id the first one it yields is what [findCategory] returns. *)
Theorem findCategories_findCategory (s : schema) (ids : list string) (id : string) :
  (forall c, In c (findCategories s ids) -> In (category_id c) ids) /\
  hd_error (findCategories s [id]) = findCategory s id.
Proof.
  split.
  - intros c Hc. unfold findCategories in Hc. apply in_flat_map in Hc.
    destruct Hc as [sc [_ Hc]]. destruct (schema_categories sc) as [cs|]; [|destruct Hc].
    unfold category_collection_values in Hc. apply in_flat_map in Hc.
    destruct Hc as [id' [Hid' Hc]].
    destruct (category_collection_get cs id') as [c'|] eqn:Hg; [|destruct Hc].
    destruct Hc as [<-|[]]. apply find_some in Hg. destruct Hg as [_ Hg].
    apply String.eqb_eq in Hg. now rewrite Hg.
  - unfold findCategories, findCategory. generalize (allSchemas s) as l.
    induction l as [|sc rest IH]; [reflexivity|].
    cbn [flat_map first_some]. unfold schema_find_own_category.
    destruct (schema_categories sc) as [cs|]; [|exact IH].
    unfold category_collection_values. cbn [flat_map].
    destruct (category_collection_get cs id); [reflexivity | exact IH].
Qed.

(* ------------------------------------------------------------------ *)
(** ** Further properties of get, set, delete, has and hasOwn *)

Lemma jsval_eqb_refl (v : jsval) : v <> Some NaN -> jsval_eqb v v = true.
Proof. destruct v as [[z|]|]; simpl; intros H; [apply Z.eqb_refl | now contradiction H | reflexivity]. Qed.

Lemma jsval_eqb_eq (a b : jsval) : jsval_eqb a b = true -> a = b.
Proof.
  destruct a as [[x|]|], b as [[y|]|]; simpl; intros H; try discriminate; [|reflexivity].
  apply Z.eqb_eq in H. now subst.
Qed.

Lemma map_has_get_none (p : property) (l : list (property * jsval)) :
  map_has p l = false -> map_get p l = None.
Proof. unfold map_has, map_get. destruct (assoc p l); [discriminate | reflexivity]. Qed.

Lemma map_has_get_some (p : property) (v : jsnum) (l : list (property * jsval)) :
  map_get p l = Some v -> map_has p l = true.
Proof. unfold map_has, map_get. destruct (assoc p l); [reflexivity | discriminate]. Qed.

(** A [get] of a property reads only that property's stored value, the
    owner and the categories. *)
Lemma get_property_local (E : env) (o o' : gobject) (p : property) :
  o_owner o' = o_owner o -> o_categories o' = o_categories o ->
  map_get p (o_properties o') = map_get p (o_properties o) ->
  get E o' (PKProp p) = get E o (PKProp p).
Proof.
  intros Ho Hc Hp. unfold get, _find. cbn [resolve_property].
  now rewrite Ho, Hc, Hp.
Qed.

(** An id key the object cannot resolve (always the case for an object with
    no owner, whose [schema] is undefined) reads as undefined, is neither
    [has] nor [hasOwn], and makes [set] and [delete] no-ops that raise no
    event, whatever the object stores. *)
Theorem unresolved_id_key_ignored (E : env) (o : gobject) (id : string) (v : jsval)
    (H : match o_owner o with
         | Some g => findProperty E (graph_schema E g) id = None
         | None => True
         end) :
  get E o (PKId id) = None /\ has E o (PKId id) = false /\ hasOwn E o (PKId id) = false /\
  set E (PKId id) v o = (tt, o, []) /\ delete E (PKId id) o = (false, o, []).
Proof.
  assert (Hr : resolve_property E o (PKId id) = None).
  { cbn [resolve_property]. destruct (o_owner o); [exact H | reflexivity]. }
  destruct v; unfold get, has, hasOwn, set, delete; run_M; cbv beta iota zeta; rewrite !Hr;
    repeat split.
Qed.

Lemma unresolved_id_key_ignored_witness :
  let o := mkObject None [cat_A] [(prop_P, Some (Num 5))] in
  get E0 o (PKId "P"%string) = None /\ has E0 o (PKId "P"%string) = false /\
  hasOwn E0 o (PKId "P"%string) = false /\
  set E0 (PKId "P"%string) (Some (Num 3)) o = (tt, o, []) /\
  delete E0 (PKId "P"%string) o = (false, o, []).
Proof.
  exact (unresolved_id_key_ignored E0 (mkObject None [cat_A] [(prop_P, Some (Num 5))]) "P"%string
           (Some (Num 3)) I).
Defined.

(** With an owner whose schema resolves the id to a property, the id key
    acts as that property in [get], [has], [hasOwn], [set] and [delete]. *)
Theorem resolved_id_key_as_property (E : env) (o : gobject) (g : graph) (id : string)
    (p : property) (v : jsval)
    (Ho : o_owner o = Some g) (Hp : findProperty E (graph_schema E g) id = Some p) :
  get E o (PKId id) = get E o (PKProp p) /\ has E o (PKId id) = has E o (PKProp p) /\
  hasOwn E o (PKId id) = hasOwn E o (PKProp p) /\
  set E (PKId id) v o = set E (PKProp p) v o /\ delete E (PKId id) o = delete E (PKProp p) o.
Proof.
  assert (Hr : resolve_property E o (PKId id) = Some p).
  { cbn [resolve_property]. now rewrite Ho. }
  destruct v; unfold get, has, hasOwn, set, delete; run_M; cbv beta iota zeta; rewrite !Hr;
    repeat split.
Qed.

Lemma resolved_id_key_as_property_witness :
  let o := mkObject (Some 0) [] [(prop_R, Some (Num 4))] in
  get E0 o (PKId "R"%string) = Some (Num 4) /\ has E0 o (PKId "R"%string) = true /\
  hasOwn E0 o (PKId "R"%string) = true /\
  set E0 (PKId "R"%string) (Some (Num 12)) o = set E0 (PKProp prop_R) (Some (Num 12)) o /\
  delete E0 (PKId "R"%string) o = delete E0 (PKProp prop_R) o.
Proof.
  destruct (resolved_id_key_as_property E0 (mkObject (Some 0) [] [(prop_R, Some (Num 4))]) 0
              "R"%string prop_R (Some (Num 12)) eq_refl eq_refl) as [H1 [H2 [H3 [H4 H5]]]].
  cbv zeta. rewrite H1, H2, H3. repeat split; first [exact H4 | exact H5 | reflexivity].
Defined.

(** A [set] of a defined value either stores it, raising one change event,
    after which [get] reads it back and [hasOwn] holds, or leaves the object
    as it was without an event; no other stored property changes. *)
Theorem set_get_roundtrip (E : env) (o : gobject) (p : property) (v : jsnum) :
  let '(_, o', evs) := set E (PKProp p) (Some v) o in
  (forall q, q <> p -> map_get q (o_properties o') = map_get q (o_properties o)) /\
  ((evs = [PropertyChanged (prop_id E p)] /\ get E o' (PKProp p) = Some v /\
    hasOwn E o' (PKProp p) = true) \/
   (o' = o /\ evs = [])).
Proof.
  rewrite set_property_eq.
  destruct (jsval_eqb _ _); [split; [reflexivity | now right]|].
  destruct (_ && _); [split; [reflexivity | now right]|].
  destruct (_ && _); [split; [reflexivity | now right]|].
  split.
  - intros q Hq. unfold with_properties. cbn [o_properties]. now apply map_get_set_other.
  - left. split; [reflexivity|].
    unfold get, hasOwn, with_properties. cbn [resolve_property o_properties o_owner].
    rewrite map_get_set. split; [now destruct (o_owner o)|].
    apply (map_has_get_some p v). apply map_get_set.
Qed.

(** After a [delete] that succeeds, the property is no longer [hasOwn], [get]
    reads it as an object storing no values would (inherited or default
    value), and no other stored property changes. *)
Theorem delete_get_roundtrip (E : env) (o o' : gobject) (p : property) (evs : list event)
    (H : delete E (PKProp p) o = (true, o', evs)) :
  evs = [PropertyChanged (prop_id E p)] /\ hasOwn E o' (PKProp p) = false /\
  get E o' (PKProp p) = get E (mkObject (o_owner o) (o_categories o) []) (PKProp p) /\
  (forall q, q <> p -> map_get q (o_properties o') = map_get q (o_properties o)).
Proof.
  rewrite delete_property_eq in H.
  destruct (negb (map_has _ _)); [discriminate|].
  destruct (negb (isRemovable _)); [discriminate|].
  inversion H; subst. clear H. unfold with_properties. repeat split.
  - unfold hasOwn. cbn [resolve_property o_properties]. apply map_has_delete.
  - apply get_property_local; [reflexivity | reflexivity|].
    cbn [o_properties]. rewrite map_get_delete. reflexivity.
  - intros q Hq. cbn [o_properties]. unfold map_get, map_delete.
    induction (o_properties o) as [|[k w] rest IH]; [reflexivity|].
    cbn [filter fst]. destruct (Nat.eqb p k) eqn:Hk; cbn [negb assoc].
    + apply Nat.eqb_eq in Hk. subst. rewrite IH.
      cbn [assoc]. apply Nat.eqb_neq in Hq. now rewrite Hq.
    + cbn [assoc]. destruct (Nat.eqb q k); [reflexivity | exact IH].
Qed.

Lemma delete_get_roundtrip_witness :
  let o := mkObject (Some 0) [cat_A] [(prop_P, Some (Num 5)); (prop_Q, Some (Num 1))] in
  delete E0 (PKProp prop_P) o = (true, mkObject (Some 0) [cat_A] [(prop_Q, Some (Num 1))],
                                  [PropertyChanged "P"%string]) /\
  get E0 (mkObject (Some 0) [cat_A] [(prop_Q, Some (Num 1))]) (PKProp prop_P) = Some (Num 7).
Proof.
  split; [reflexivity|].
  rewrite (proj1 (proj2 (proj2 (delete_get_roundtrip E0
    (mkObject (Some 0) [cat_A] [(prop_P, Some (Num 5)); (prop_Q, Some (Num 1))])
    (mkObject (Some 0) [cat_A] [(prop_Q, Some (Num 1))]) prop_P [PropertyChanged "P"%string] eq_refl)))).
  reflexivity.
Defined.

(** When [has] is false for a property, [get] reads the owner's default
    value for it, or undefined for an object with no owner. *)
Theorem not_has_get_default (E : env) (o : gobject) (p : property)
    (H : has E o (PKProp p) = false) :
  get E o (PKProp p) =
  match o_owner o with
  | Some g => defaultValue (getMetadata (prop_container E p) g)
  | None => None
  end.
Proof.
  unfold has, hasOwn in H. cbn [resolve_property] in H.
  apply orb_false_iff in H. destruct H as [Hown Hfind].
  unfold get. cbn [resolve_property].
  rewrite (map_has_get_none _ _ Hown).
  destruct (_find E o p); [discriminate|]. now destruct (o_owner o).
Qed.

Lemma not_has_get_default_witness :
  has E0 (in_G 0) (PKProp prop_P) = false /\ get E0 (in_G 0) (PKProp prop_P) = Some (Num 0).
Proof.
  split; [reflexivity|]. exact (not_has_get_default E0 (in_G 0) prop_P eq_refl).
Defined.

(* ------------------------------------------------------------------ *)
(** ** Further properties of the category methods *)

Lemma category_eqb_refl (c : category) : category_eqb c c = true.
Proof.
  revert c. fix IH 1. intros [r id [b|]]; cbn [category_eqb].
  - rewrite Nat.eqb_refl, String.eqb_refl. exact (IH b).
  - now rewrite Nat.eqb_refl, String.eqb_refl.
Qed.

Lemma category_eqb_eq (a b : category) : category_eqb a b = true -> a = b.
Proof.
  revert a b. fix IH 1. intros [r id pa] [r' id' pb]; cbn [category_eqb].
  intros H. apply andb_prop in H. destruct H as [H Hp]. apply andb_prop in H.
  destruct H as [Hr Hid]. apply Nat.eqb_eq in Hr. apply String.eqb_eq in Hid. subst.
  destruct pa as [a|], pb as [b|]; try discriminate; [|reflexivity].
  now rewrite (IH a b Hp).
Qed.

Lemma set_has_app_last (c : category) (cs : list category) : set_has c (cs ++ [c]) = true.
Proof.
  unfold set_has. rewrite existsb_app. cbn [existsb]. now rewrite category_eqb_refl, !orb_true_r.
Qed.

Lemma set_has_app_l (c : category) (cs added : list category) :
  set_has c cs = true -> set_has c (cs ++ added) = true.
Proof. unfold set_has. rewrite existsb_app. intros H. now rewrite H. Qed.

Lemma set_delete_absent (c : category) (cs : list category) :
  set_has c cs = false -> set_delete c cs = cs.
Proof.
  unfold set_has, set_delete. induction cs as [|c' rest IH]; [reflexivity|].
  cbn [existsb filter]. intros H. apply orb_false_iff in H. destruct H as [H1 H2].
  rewrite H1. cbn [negb]. now rewrite (IH H2).
Qed.

Lemma set_has_delete (c : category) (cs : list category) : set_has c (set_delete c cs) = false.
Proof.
  unfold set_has, set_delete. induction cs as [|c' rest IH]; [reflexivity|].
  cbn [filter]. destruct (category_eqb c c') eqn:Hc; cbn [negb existsb]; [exact IH|].
  now rewrite Hc, IH.
Qed.

(** Adding a category the object does not have and then deleting it by the
    category itself restores the object; the two calls raise an add and a
    delete event, and the deletion returns [true]. *)
Theorem addCategory_deleteCategory_roundtrip (E : env) (o : gobject) (c : category)
    (H : set_has c (o_categories o) = false) :
  (u <- addCategory c ;; deleteCategory E (CKCat c)) o =
  (DelBool true, o, [CategoryChanged CAdd c; CategoryChanged CDelete c]).
Proof.
  unfold addCategory, deleteCategory. run_M. cbv beta iota zeta. rewrite H.
  unfold with_categories. cbn [o_categories o_owner o_properties].
  rewrite set_has_app_last. cbn beta iota. cbn [o_categories o_owner o_properties app].
  unfold set_delete. rewrite filter_app. cbn [filter]. rewrite category_eqb_refl. cbn [negb].
  fold (set_delete c (o_categories o)). rewrite (set_delete_absent _ _ H), app_nil_r.
  now destruct o.
Qed.

Lemma addCategory_deleteCategory_roundtrip_witness :
  set_has cat_B [cat_A] = false /\
  (u <- addCategory cat_B ;; deleteCategory E0 (CKCat cat_B)) (mkObject (Some 0) [cat_A] []) =
  (DelBool true, mkObject (Some 0) [cat_A] [],
   [CategoryChanged CAdd cat_B; CategoryChanged CDelete cat_B]).
Proof.
  split; [reflexivity|].
  exact (addCategory_deleteCategory_roundtrip E0 (mkObject (Some 0) [cat_A] []) cat_B eq_refl).
Defined.

(** A [deleteCategory] by an id that the owner's schema resolves to a
    category removes that category when the object has it, raises one delete
    event and returns the category; otherwise it returns [false] and changes
    nothing. Afterwards the object no longer has the category. *)
Theorem deleteCategory_resolved_id (E : env) (o : gobject) (g : graph) (id : string)
    (c : category)
    (Ho : o_owner o = Some g) (Hc : findCategory (graph_schema E g) id = Some c) :
  deleteCategory E (CKId id) o =
  (if set_has c (o_categories o)
   then (DelCategory c, with_categories o (set_delete c (o_categories o)),
         [CategoryChanged CDelete c])
   else (DelBool false, o, [])) /\
  set_has c (o_categories (snd (fst (deleteCategory E (CKId id) o)))) = false.
Proof.
  assert (Hd : deleteCategory E (CKId id) o =
               (if set_has c (o_categories o)
                then (DelCategory c, with_categories o (set_delete c (o_categories o)),
                      [CategoryChanged CDelete c])
                else (DelBool false, o, []))).
  { unfold deleteCategory. run_M. cbv beta iota zeta. rewrite Ho, Hc.
    destruct (set_has c (o_categories o)); reflexivity. }
  split; [exact Hd|]. rewrite Hd.
  destruct (set_has c (o_categories o)) eqn:Hh; [apply set_has_delete | exact Hh].
Qed.

Lemma deleteCategory_resolved_id_witness :
  deleteCategory E0 (CKId "B"%string) (mkObject (Some 0) [cat_A; cat_B] []) =
  (DelCategory cat_B, mkObject (Some 0) [cat_A] [], [CategoryChanged CDelete cat_B]).
Proof.
  exact (proj1 (deleteCategory_resolved_id E0 (mkObject (Some 0) [cat_A; cat_B] []) 0
                  "B"%string cat_B eq_refl eq_refl)).
Defined.

Lemma isBasedOn_chain (own a : category) :
  In a (category_chain own) -> _isBasedOnCategory own a = true.
Proof.
  intros H. unfold _isBasedOnCategory. apply existsb_exists. exists a.
  split; [exact H | apply category_eqb_refl].
Qed.

(** After [addCategory c], the object has [c] and every category [c] is
    based on, by category and by id, and every category it had before is
    still there. *)
Theorem addCategory_hasCategory (c : category) (o : gobject) :
  let o' := snd (fst (addCategory c o)) in
  (forall a, In a (category_chain c) ->
     _hasCategory o' a = true /\ _hasCategoryId o' (category_id a) = true) /\
  (forall a, In a (o_categories o) -> In a (o_categories o')).
Proof.
  assert (Hin : In c (o_categories (snd (fst (addCategory c o))))).
  { unfold addCategory. run_M. cbv beta iota zeta.
    destruct (set_has c (o_categories o)) eqn:H; cbn [fst snd].
    - unfold set_has in H. apply existsb_exists in H. destruct H as [x [Hx Hcx]].
      now rewrite (category_eqb_eq _ _ Hcx).
    - cbn [o_categories with_categories]. apply in_or_app. right. now left. }
  cbv zeta. split.
  - intros a Ha. split.
    + unfold _hasCategory. apply existsb_exists. exists c. split; [exact Hin|].
      now apply isBasedOn_chain.
    + unfold _hasCategoryId. apply existsb_exists. exists c. split; [exact Hin|].
      unfold _isBasedOnCategoryId. apply existsb_exists. exists a.
      split; [exact Ha | apply String.eqb_refl].
  - intros a Ha. unfold addCategory. run_M. cbv beta iota zeta.
    destruct (set_has c (o_categories o)); cbn [fst snd o_categories with_categories];
      [exact Ha | apply in_or_app; now left].
Qed.

(** The loop of [copyCategories]: it appends to the object's categories,
    in order, those of the list it does not have yet, raising one add event
    for each. *)
Lemma copy_categories_loop_spec (cs : list category) (changed : bool) (o : gobject) :
  let '(ch, o', evs) := copy_categories_loop cs changed o in
  exists added,
    o' = with_categories o (o_categories o ++ added) /\
    evs = map (CategoryChanged CAdd) added /\
    (ch = true <-> changed = true \/ added <> []) /\
    (forall c, In c added -> In c cs /\ set_has c (o_categories o) = false) /\
    (forall c, In c cs -> set_has c (o_categories o') = true).
Proof.
  revert changed o. induction cs as [|c rest IH]; intros changed o; cbn [copy_categories_loop].
  - run_M. exists []. rewrite app_nil_r. destruct o.
    split; [reflexivity|]. split; [reflexivity|]. split; [|split; intros x []].
    split; [now left|]. intros [H|H]; [exact H | now contradiction H].
  - run_M. cbv beta iota zeta. destruct (set_has c (o_categories o)) eqn:Hc.
    + specialize (IH changed o).
      destruct (copy_categories_loop rest changed o) as [[ch o'] evs].
      destruct IH as [added [Ho' [Hevs [Hch [Hadded Hall]]]]].
      exists added. split; [exact Ho'|]. split; [exact Hevs|]. split; [exact Hch|]. split.
      * intros x Hx. destruct (Hadded x Hx) as [H1 H2]. split; [now right | exact H2].
      * intros x [<-|Hx]; [|now apply Hall].
        rewrite Ho'. cbn [with_categories o_categories]. now apply set_has_app_l.
    + specialize (IH true (with_categories o (o_categories o ++ [c]))).
      destruct (copy_categories_loop rest true _) as [[ch o'] evs].
      destruct IH as [added [Ho' [Hevs [Hch [Hadded Hall]]]]].
      cbn [with_categories o_categories o_owner o_properties] in *.
      exists (c :: added). split; [|split; [|split; [|split]]].
      * rewrite Ho'. unfold with_categories. cbn [o_owner o_properties]. now rewrite <- app_assoc.
      * rewrite Hevs. reflexivity.
      * split; [intros _; right; discriminate | intros _; apply Hch; now left].
      * intros x [<-|Hx]; [split; [now left | exact Hc]|].
        destruct (Hadded x Hx) as [H1 H2]. split; [now right|].
        unfold set_has in *. rewrite existsb_app in H2. now apply orb_false_iff in H2.
      * intros x [<-|Hx]; [|now apply Hall].
        rewrite Ho'. cbn [with_categories o_categories]. apply set_has_app_l. apply set_has_app_last.
Qed.

(** [copyCategories] appends to this object's categories, in [other]'s
    order, those of [other]'s categories it does not have, raising one add
    event for each, and returns whether it added any; afterwards the object
    has every category of [other]; owner and properties are unchanged. *)
Theorem copyCategories_appends (other o : gobject) :
  let '(ch, o', evs) := copyCategories other o in
  o_owner o' = o_owner o /\ o_properties o' = o_properties o /\
  exists added,
    o_categories o' = o_categories o ++ added /\
    evs = map (CategoryChanged CAdd) added /\
    (ch = true <-> added <> []) /\
    (forall c, In c added -> In c (o_categories other) /\ set_has c (o_categories o) = false) /\
    (forall c, In c (o_categories other) -> set_has c (o_categories o') = true).
Proof.
  unfold copyCategories. destruct (o_categories other) as [|c cs] eqn:Hcs.
  - cbn. split; [reflexivity|]. split; [reflexivity|]. exists []. rewrite app_nil_r.
    split; [reflexivity|]. split; [reflexivity|]. split; [|split; intros x []].
    split; [discriminate | intros H; now contradiction H].
  - pose proof (copy_categories_loop_spec (c :: cs) false o) as Hl.
    destruct (copy_categories_loop (c :: cs) false o) as [[ch o'] evs].
    destruct Hl as [added [Ho' [Hevs [Hch [Hadded Hall]]]]].
    subst o'. cbn [with_categories o_owner o_properties o_categories].
    split; [reflexivity|]. split; [reflexivity|].
    exists added. split; [reflexivity|]. split; [exact Hevs|]. split; [|split; [exact Hadded | exact Hall]].
    split.
    + intros H. apply Hch in H. destruct H; [discriminate | exact H].
    + intros H. apply Hch. now right.
Qed.

(* ------------------------------------------------------------------ *)
(** ** Further properties of copyProperties and _mergeFrom *)

Section CopyFold.

Variables (E : env) (dest source : option graph).

Lemma copy_entry_skipped_step (props : list (property * jsval)) (ch : bool) (evs : list event)
    (e : property * jsval) :
  copy_entry_skipped E dest source props e = true ->
  copy_entry_by_claim E dest source (props, ch, evs) e = (props, ch, evs).
Proof.
  destruct e as [p v]. unfold copy_entry_skipped, copy_entry_by_claim.
  destruct (jsval_eqb (map_get p props) v); [reflexivity|].
  destruct dest as [g|]; cbn [orb]; intros H; [now rewrite H | discriminate].
Qed.

Lemma copy_entry_skipped_local (props props' : list (property * jsval)) (p : property) (v : jsval) :
  map_get p props' = map_get p props ->
  copy_entry_skipped E dest source props' (p, v) = copy_entry_skipped E dest source props (p, v).
Proof. intros H. unfold copy_entry_skipped. now rewrite H. Qed.

(** After its step, an entry is settled: its value is stored, or a second
    pass over it would skip it. *)
Lemma copy_entry_then_settled (props : list (property * jsval)) (ch : bool) (evs : list event)
    (p : property) (v : jsval) props' ch' evs' :
  copy_entry_by_claim E dest source (props, ch, evs) (p, v) = (props', ch', evs') ->
  map_get p props' = v \/ copy_entry_skipped E dest source props' (p, v) = true.
Proof.
  unfold copy_entry_by_claim. destruct (jsval_eqb (map_get p props) v) eqn:Heq.
  - intros H. inversion H; subst. right. unfold copy_entry_skipped. now rewrite Heq.
  - destruct dest as [g|]; cbn [orb].
    + destruct (negb _ || _ || _) eqn:Hc; intros H; inversion H; subst.
      * right. unfold copy_entry_skipped. now rewrite Heq, Hc.
      * left. apply map_get_set.
    + intros H. inversion H; subst. left. apply map_get_set.
Qed.

Lemma copy_entry_other (props : list (property * jsval)) (ch : bool) (evs : list event)
    (p q : property) (v : jsval) props' ch' evs' :
  q <> p ->
  copy_entry_by_claim E dest source (props, ch, evs) (p, v) = (props', ch', evs') ->
  map_get q props' = map_get q props.
Proof.
  intros Hq. unfold copy_entry_by_claim.
  destruct (jsval_eqb _ _); [intros H; now inversion H|].
  destruct (match dest with Some g => Some _ | None => None end) as [md|];
    [destruct (negb _ || _ || _)|]; cbn [orb]; intros H; inversion H; subst;
    try reflexivity; now apply map_get_set_other.
Qed.

Lemma copy_fold_other (entries : list (property * jsval)) (q : property)
    (props : list (property * jsval)) (ch : bool) (evs : list event) props' ch' evs' :
  ~ In q (map fst entries) ->
  fold_left (copy_entry_by_claim E dest source) entries (props, ch, evs) = (props', ch', evs') ->
  map_get q props' = map_get q props.
Proof.
  revert props ch evs. induction entries as [|[p v] rest IH]; intros props ch evs Hq H.
  - cbn in H. now inversion H.
  - cbn [fold_left] in H. cbn [map fst In] in Hq.
    destruct (copy_entry_by_claim E dest source (props, ch, evs) (p, v)) as [[pa cha] evsa] eqn:Ha.
    rewrite (IH pa cha evsa (fun Hin => Hq (or_intror Hin)) H).
    apply (copy_entry_other props ch evs p q v pa cha evsa); [|exact Ha].
    intros ->. apply Hq. now left.
Qed.

Lemma copy_fold_all_settled (entries : list (property * jsval))
    (props : list (property * jsval)) (ch : bool) (evs : list event) props' ch' evs' :
  NoDup (map fst entries) ->
  fold_left (copy_entry_by_claim E dest source) entries (props, ch, evs) = (props', ch', evs') ->
  Forall (fun e => map_get (fst e) props' = snd e \/
                   copy_entry_skipped E dest source props' e = true) entries.
Proof.
  revert props ch evs. induction entries as [|[p v] rest IH]; intros props ch evs Hnd H;
    [constructor|].
  cbn [map fst] in Hnd. inversion Hnd as [|x y Hp Hnd']; subst.
  cbn [fold_left] in H.
  destruct (copy_entry_by_claim E dest source (props, ch, evs) (p, v)) as [[pa cha] evsa] eqn:Ha.
  constructor; [|exact (IH pa cha evsa Hnd' H)].
  pose proof (copy_fold_other rest p pa cha evsa props' ch' evs' Hp H) as Hloc.
  cbn [fst snd]. rewrite (copy_entry_skipped_local pa props' p v Hloc), Hloc.
  exact (copy_entry_then_settled props ch evs p v pa cha evsa Ha).
Qed.

(** With no [NaN] among the entries' values, a settled entry is skipped. *)
Lemma copy_fold_all_skipped (entries : list (property * jsval))
    (props : list (property * jsval)) (ch : bool) (evs : list event) props' ch' evs' :
  NoDup (map fst entries) ->
  Forall (fun e => snd e <> Some NaN) entries ->
  fold_left (copy_entry_by_claim E dest source) entries (props, ch, evs) = (props', ch', evs') ->
  Forall (fun e => copy_entry_skipped E dest source props' e = true) entries.
Proof.
  intros Hnd Hnan H. pose proof (copy_fold_all_settled entries props ch evs props' ch' evs' Hnd H) as Hs.
  apply Forall_forall. intros [p v] Hin.
  destruct (proj1 (Forall_forall _ _) Hs (p, v) Hin) as [Heq|Hsk]; [|exact Hsk].
  cbn [fst snd] in Heq. unfold copy_entry_skipped. rewrite Heq, jsval_eqb_refl; [reflexivity|].
  exact (proj1 (Forall_forall _ _) Hnan (p, v) Hin).
Qed.

Lemma copy_fold_skipped_noop (entries : list (property * jsval))
    (props : list (property * jsval)) (ch : bool) (evs : list event) :
  Forall (fun e => copy_entry_skipped E dest source props e = true) entries ->
  fold_left (copy_entry_by_claim E dest source) entries (props, ch, evs) = (props, ch, evs).
Proof.
  intros H. induction H as [|e rest He _ IH]; [reflexivity|].
  cbn [fold_left]. now rewrite copy_entry_skipped_step.
Qed.

End CopyFold.

(** [copyProperties] through its fold: the loop run on this object. *)
Lemma copyProperties_fold (E : env) (other o : gobject) (e : property * jsval)
    (es : list (property * jsval)) :
  o_properties other = e :: es ->
  copyProperties E other o =
  (let '(props', ch, evs) :=
     fold_left (copy_entry_by_claim E (o_owner o) (o_owner other)) (e :: es)
       (o_properties o, false, []) in
   (ch, mkObject (o_owner o) (o_categories o) props', evs)).
Proof.
  intros Hp. unfold copyProperties. rewrite Hp.
  pose proof (copy_loop_fold E (o_owner other) (e :: es) (o_owner o) (o_categories o)
                (o_properties o) false []) as Hf.
  destruct o as [owner cats props]. cbn [o_owner o_categories o_properties] in *.
  destruct (copy_properties_loop E (o_owner other) (e :: es) false (mkObject owner cats props))
    as [[c o'] ev].
  exact Hf.
Qed.

(** With [other]'s stored properties under distinct keys, as a [Map] has
    them, and none of them [NaN], a second [copyProperties] from the same
    object changes nothing, raises no event and returns [false]. *)
Theorem copyProperties_idempotent (E : env) (other o o1 : gobject) (c1 : bool) (ev1 : list event)
    (Hnd : NoDup (map fst (o_properties other)))
    (Hnan : Forall (fun e => snd e <> Some NaN) (o_properties other))
    (H : copyProperties E other o = (c1, o1, ev1)) :
  copyProperties E other o1 = (false, o1, []).
Proof.
  destruct (o_properties other) as [|e es] eqn:Hp.
  - unfold copyProperties. now rewrite Hp.
  - rewrite (copyProperties_fold E other o e es Hp) in H.
    destruct (fold_left _ (e :: es) (o_properties o, false, [])) as [[props1 ch1] evs1] eqn:Hf.
    inversion H; subst. clear H.
    rewrite (copyProperties_fold E other _ e es Hp). cbn [o_owner o_categories o_properties].
    rewrite copy_fold_skipped_noop; [reflexivity|].
    exact (copy_fold_all_skipped E (o_owner o) (o_owner other) (e :: es) _ _ _ _ _ _ Hnd Hnan Hf).
Qed.

Lemma copyProperties_idempotent_witness :
  let other := mkObject None [] [(prop_P, Some (Num 5)); (prop_Q, Some (Num 2)); (prop_R, Some (Num 20))] in
  let o1 := mkObject (Some 0) [] [(prop_Q, Some (Num 1)); (prop_P, Some (Num 5))] in
  copyProperties E0 other (mkObject (Some 0) [] [(prop_Q, Some (Num 1))]) =
    (true, o1, [PropertyChanged "P"%string]) /\
  copyProperties E0 other o1 = (false, o1, []).
Proof.
  split; [reflexivity|].
  apply (copyProperties_idempotent E0
           (mkObject None [] [(prop_P, Some (Num 5)); (prop_Q, Some (Num 2)); (prop_R, Some (Num 20))])
           (mkObject (Some 0) [] [(prop_Q, Some (Num 1))]) _ true [PropertyChanged "P"%string]).
  - cbn. repeat constructor; cbn; intuition discriminate.
  - cbn. repeat constructor; discriminate.
  - reflexivity.
Defined.

(** After [copyProperties], with [other]'s keys distinct, each of [other]'s
    values is stored unless the owner's imported metadata for it is not
    sharable, is immutable with a value present, or rejects the value; an
    object with no owner stores them all. A property [other] does not store
    keeps its value. *)
Theorem copyProperties_outcome (E : env) (other o : gobject)
    (Hnd : NoDup (map fst (o_properties other))) :
  let o1 := snd (fst (copyProperties E other o)) in
  (forall p v, In (p, v) (o_properties other) ->
     map_get p (o_properties o1) = v \/
     exists g, o_owner o = Some g /\
       let md := _importMetadata g (o_owner other) (prop_container E p) in
       isSharable md = false \/
       (isImmutable md = true /\ is_defined (map_get p (o_properties o1)) = true) \/
       (canValidate md = true /\ validate md v = false)) /\
  (o_owner o = None -> forall p v, In (p, v) (o_properties other) -> map_get p (o_properties o1) = v) /\
  (forall q, ~ In q (map fst (o_properties other)) ->
     map_get q (o_properties o1) = map_get q (o_properties o)).
Proof.
  cbv zeta. destruct (o_properties other) as [|e es] eqn:Hp.
  - unfold copyProperties. rewrite Hp. cbn. split; [intros p v []|]. split; [intros _ p v []|].
    reflexivity.
  - rewrite (copyProperties_fold E other o e es Hp).
    destruct (fold_left _ (e :: es) (o_properties o, false, [])) as [[props1 ch1] evs1] eqn:Hf.
    cbn [fst snd o_properties o_owner].
    pose proof (copy_fold_all_settled E (o_owner o) (o_owner other) (e :: es) _ _ _ _ _ _ Hnd Hf)
      as Hall.
    assert (Hent : forall p v, In (p, v) (e :: es) ->
              map_get p props1 = v \/
              exists g, o_owner o = Some g /\
                let md := _importMetadata g (o_owner other) (prop_container E p) in
                isSharable md = false \/
                (isImmutable md = true /\ is_defined (map_get p props1) = true) \/
                (canValidate md = true /\ validate md v = false)).
    { intros p v Hin. pose proof (proj1 (Forall_forall _ _) Hall (p, v) Hin) as Hs.
      destruct Hs as [Hs|Hs]; [left; exact Hs|].
      unfold copy_entry_skipped in Hs. apply orb_true_iff in Hs. destruct Hs as [Hs|Hs].
      - left. now apply jsval_eqb_eq.
      - right. destruct (o_owner o) as [g|]; [|discriminate]. exists g. split; [reflexivity|].
        cbv zeta. apply orb_true_iff in Hs. destruct Hs as [Hs|Hs].
        + apply orb_true_iff in Hs. destruct Hs as [Hs|Hs].
          * left. now apply negb_true_iff.
          * right; left. now apply andb_prop in Hs.
        + right; right. apply andb_prop in Hs. destruct Hs as [Hs1 Hs2].
          split; [exact Hs1 | now apply negb_true_iff]. }
    split; [exact Hent|]. split.
    + intros Hno p v Hin. destruct (Hent p v Hin) as [H|[g [Hg _]]]; [exact H|].
      rewrite Hno in Hg. discriminate.
    + intros q Hq. exact (copy_fold_other E _ _ (e :: es) q _ _ _ _ _ _ Hq Hf).
Qed.

Lemma copyProperties_outcome_witness :
  let other := mkObject None [] [(prop_P, Some (Num 5)); (prop_Q, Some (Num 2)); (prop_R, Some (Num 20))] in
  NoDup (map fst (o_properties other)) /\
  map_get prop_R (o_properties (snd (fst (copyProperties E0 other ownerless)))) = Some (Num 20).
Proof.
  assert (Hnd : NoDup (map fst [(prop_P, Some (Num 5)); (prop_Q, Some (Num 2)); (prop_R, Some (Num 20))])).
  { cbn. repeat constructor; cbn; intuition discriminate. }
  split; [exact Hnd|].
  exact (proj1 (proj2 (copyProperties_outcome E0
           (mkObject None [] [(prop_P, Some (Num 5)); (prop_Q, Some (Num 2)); (prop_R, Some (Num 20))])
           ownerless Hnd)) eq_refl prop_R (Some (Num 20)) (or_intror (or_intror (or_introl eq_refl)))).
Defined.

Lemma assoc_NoDup_In {B} (l : list (nat * B)) (k : nat) (b : B) :
  NoDup (map fst l) -> In (k, b) l -> assoc k l = Some b.
Proof.
  induction l as [|[k' b'] rest IH]; intros Hnd Hin; [destruct Hin|].
  cbn [map fst] in Hnd. inversion Hnd as [|x y Hk Hnd']; subst. cbn [assoc].
  destruct Hin as [Heq|Hin].
  - inversion Heq; subst. now rewrite Nat.eqb_refl.
  - destruct (Nat.eqb k k') eqn:Hkk; [|exact (IH Hnd' Hin)].
    apply Nat.eqb_eq in Hkk. subst. exfalso. apply Hk.
    apply (in_map fst) in Hin. exact Hin.
Qed.

Lemma copy_categories_loop_present (cs : list category) (changed : bool) (o : gobject) :
  (forall c, In c cs -> set_has c (o_categories o) = true) ->
  copy_categories_loop cs changed o = (changed, o, []).
Proof.
  induction cs as [|c rest IH]; intros H; [reflexivity|].
  cbn [copy_categories_loop]. run_M. cbv beta iota zeta.
  rewrite (H c (or_introl eq_refl)). rewrite IH; [reflexivity|].
  intros c' Hc'. apply H. now right.
Qed.

(** Merging an object into itself, with its stored properties under
    distinct keys and none of them [NaN], changes nothing, raises no event
    and returns [false]. *)
Theorem mergeFrom_self (E : env) (o : gobject) (Hnd : NoDup (map fst (o_properties o)))
    (Hnan : Forall (fun e => snd e <> Some NaN) (o_properties o)) :
  _mergeFrom E o o = (false, o, []).
Proof.
  assert (Hp : copyProperties E o o = (false, o, [])).
  { destruct o as [owner cats props]. cbn [o_properties] in Hnd, Hnan.
    destruct props as [|e es]; [reflexivity|].
    rewrite (copyProperties_fold E (mkObject owner cats (e :: es)) _ e es eq_refl).
    cbn [o_owner o_categories o_properties].
    rewrite copy_fold_skipped_noop; [reflexivity|].
    apply Forall_forall. intros [p v] Hin. unfold copy_entry_skipped, map_get.
    rewrite (assoc_NoDup_In _ _ _ Hnd Hin), jsval_eqb_refl; [reflexivity|].
    exact (proj1 (Forall_forall _ _) Hnan (p, v) Hin). }
  assert (Hc : copyCategories o o = (false, o, [])).
  { unfold copyCategories. destruct (o_categories o) as [|c cs] eqn:Hcs; [reflexivity|].
    apply copy_categories_loop_present. intros c' Hc'. rewrite Hcs.
    unfold set_has. apply existsb_exists. exists c'. split; [exact Hc' | apply category_eqb_refl]. }
  unfold _mergeFrom. run_M. rewrite Hp. cbv beta iota zeta. rewrite Hc. reflexivity.
Qed.

Lemma mergeFrom_self_witness :
  _mergeFrom E0 (mkObject (Some 0) [cat_A; cat_B] [(prop_P, Some (Num 5)); (prop_R, Some (Num 20))])
             (mkObject (Some 0) [cat_A; cat_B] [(prop_P, Some (Num 5)); (prop_R, Some (Num 20))]) =
  (false, mkObject (Some 0) [cat_A; cat_B] [(prop_P, Some (Num 5)); (prop_R, Some (Num 20))], []).
Proof.
  apply mergeFrom_self; cbn.
  - repeat constructor; cbn; intuition discriminate.
  - repeat constructor; discriminate.
Defined.

(* ------------------------------------------------------------------ *)
(** ** What each method leaves alone *)

(** The property methods [set], [delete] and [copyProperties] never change
    the object's owner or categories. *)
Theorem property_methods_frame (E : env) (key : propkey) (v : jsval) (other : gobject)
    (w : option graph) (cs : list category) :
  let P := fun o => o_owner o = w /\ o_categories o = cs in
  preserves P (set E key v) /\ preserves P (delete E key) /\
  preserves P (copyProperties E other).
Proof.
  cbv zeta.
  assert (Hdel : preserves (fun o => o_owner o = w /\ o_categories o = cs) (delete E key)).
  { unfold delete. preserve_tac. apply preserves_modify. now intros o Ho. }
  split; [|split; [exact Hdel|]].
  - unfold set. destruct v as [z|].
    + preserve_tac. apply preserves_modify. now intros o Ho.
    + apply preserves_bind; [exact Hdel | intros; apply preserves_ret].
  - unfold copyProperties. destruct (o_properties other) as [|e es]; [apply preserves_ret|].
    generalize false. generalize (o_owner other). generalize (e :: es). clear.
    induction l as [|[p x] rest IH]; intros src changed; cbn [copy_properties_loop];
      preserve_tac; try apply IH.
    apply preserves_modify. now intros o Ho.
Qed.

(** The category methods [addCategory], [deleteCategory] and
    [copyCategories] never change the object's owner or stored properties;
    [_setOwner] never changes its categories or stored properties. *)
Theorem category_methods_frame (E : env) (k : catkey) (c : category) (other : gobject)
    (owner w : option graph) (cs : list category) (ps : list (property * jsval)) :
  let P := fun o => o_owner o = w /\ o_properties o = ps in
  (preserves P (addCategory c) /\ preserves P (deleteCategory E k) /\
   preserves P (copyCategories other)) /\
  preserves (fun o => o_categories o = cs /\ o_properties o = ps) (_setOwner owner).
Proof.
  cbv zeta. split; [split; [|split]|].
  - unfold addCategory. preserve_tac. apply preserves_modify. now intros o Ho.
  - unfold deleteCategory. preserve_tac. apply preserves_modify. now intros o Ho.
  - unfold copyCategories. destruct (o_categories other) as [|d ds]; [apply preserves_ret|].
    generalize false. generalize (d :: ds). clear.
    induction l as [|d rest IH]; intros changed; cbn [copy_categories_loop]; preserve_tac;
      try apply IH.
    apply preserves_modify. now intros o Ho.
  - unfold _setOwner. preserve_tac. apply preserves_modify. now intros o Ho.
Qed.

(* ------------------------------------------------------------------ *)
(** ** hasCategoryInSet *)

Lemma category_eqb_sym (a b : category) : category_eqb a b = category_eqb b a.
Proof.
  destruct (category_eqb a b) eqn:H.
  - apply category_eqb_eq in H. subst. now rewrite category_eqb_refl.
  - destruct (category_eqb b a) eqn:H'; [|reflexivity].
    apply category_eqb_eq in H'. subst. now rewrite category_eqb_refl in H.
Qed.

Lemma catkey_eqb_eq (a b : catkey) : catkey_eqb a b = true -> a = b.
Proof.
  destruct a as [x|x], b as [y|y]; cbn [catkey_eqb]; intros H; try discriminate.
  - apply String.eqb_eq in H. now subst.
  - apply category_eqb_eq in H. now subst.
Qed.

Lemma key_has_add (x k : catkey) (s : list catkey) :
  key_has x (key_add k s) = key_has x s || catkey_eqb x k.
Proof.
  unfold key_add. destruct (key_has k s) eqn:Hk.
  - destruct (catkey_eqb x k) eqn:Hx; [|now rewrite orb_false_r].
    apply catkey_eqb_eq in Hx. subst. now rewrite Hk.
  - unfold key_has. rewrite existsb_app. cbn [existsb]. now rewrite orb_false_r.
Qed.

Lemma key_has_inherit_chain (x : catkey) (c : category) (s : list catkey) :
  key_has x (inherit_chain c s) =
  key_has x s || existsb (fun a => catkey_eqb x (CKCat a)) (category_chain c).
Proof.
  revert c s. fix IH 1. intros [r id b] s. cbn [inherit_chain category_chain existsb].
  destruct b as [b|].
  - rewrite IH, key_has_add. now rewrite orb_assoc.
  - rewrite key_has_add. cbn [existsb]. now rewrite orb_false_r.
Qed.

Lemma inherit_all_none (E : env) (o : gobject) (ks : list catkey) (inh : option (list catkey)) :
  inherit_all E o ks inh = None -> inh = None /\ forall k, In k ks -> resolve_catkey E o k = None.
Proof.
  revert inh. induction ks as [|k rest IH]; intros inh H; cbn [inherit_all] in H.
  - split; [exact H | intros k []].
  - destruct (IH _ H) as [Hinh Hrest].
    destruct (resolve_catkey E o k) eqn:Hk; [discriminate|].
    split; [exact Hinh|]. intros k' [<-|Hk']; [exact Hk | now apply Hrest].
Qed.

Lemma inherit_all_some (E : env) (o : gobject) (ks : list catkey) (inh : option (list catkey))
    (r : list catkey) (x : catkey) :
  inherit_all E o ks inh = Some r ->
  key_has x r =
  (match inh with Some s => key_has x s | None => false end) ||
  existsb (fun k => match resolve_catkey E o k with
                    | Some c => existsb (fun a => catkey_eqb x (CKCat a)) (category_chain c)
                    | None => false
                    end) ks.
Proof.
  revert inh. induction ks as [|k rest IH]; intros inh H; cbn [inherit_all existsb] in *.
  - subst inh. now rewrite orb_false_r.
  - rewrite (IH _ H). destruct (resolve_catkey E o k) as [c|].
    + rewrite key_has_inherit_chain. rewrite orb_assoc. f_equal.
      destruct inh; reflexivity.
    + reflexivity.
Qed.

Lemma chain_in_set_eq (s : list catkey) (c : category) :
  chain_in_set s c =
  existsb (fun a => key_has (CKCat a) s || key_has (CKId (category_id a)) s) (category_chain c).
Proof.
  revert c. fix IH 1. intros [r id b]. cbn [chain_in_set category_chain existsb category_id].
  destruct b as [b|]; [now rewrite IH | cbn [existsb]; now rewrite !orb_false_r].
Qed.

Lemma inherit_all_ids (E : env) (o : gobject) (ks : list catkey) (x : string) :
  existsb (fun k => match resolve_catkey E o k with
                    | Some c => existsb (fun a => catkey_eqb (CKId x) (CKCat a)) (category_chain c)
                    | None => false
                    end) ks = false.
Proof.
  induction ks as [|k rest IH]; [reflexivity|]. cbn [existsb]. rewrite IH, orb_false_r.
  destruct (resolve_catkey E o k) as [c|]; [|reflexivity].
  induction (category_chain c) as [|a l IHl]; [reflexivity|]. exact IHl.
Qed.

Lemma inherit_all_unresolved (E : env) (o : gobject) (ks : list catkey) (inh : option (list catkey)) :
  (forall k, In k ks -> resolve_catkey E o k = None) -> inherit_all E o ks inh = inh.
Proof.
  revert inh. induction ks as [|k rest IH]; intros inh H; [reflexivity|].
  cbn [inherit_all]. rewrite (H k (or_introl eq_refl)). apply IH.
  intros k' Hk'. apply H. now right.
Qed.

(** In the inherited mode, once some member of the set resolves to a
    category (an id through the owner's schema), the object matches exactly
    when one of its categories shares an ancestor (itself included) with one
    of those resolved members: ids no longer match by themselves, and a
    category based on a common base matches too. When no member resolves,
    the inherited mode answers as the exact mode. *)
Theorem hasCategoryInSet_inherited (E : env) (o : gobject) (s : list catkey) :
  ((exists k, In k s /\ resolve_catkey E o k <> None) ->
   (hasCategoryInSet E o (Some s) MInherited = true <->
    exists own k c a, In own (o_categories o) /\ In k s /\ resolve_catkey E o k = Some c /\
                      In a (category_chain own) /\ In a (category_chain c))) /\
  ((forall k, In k s -> resolve_catkey E o k = None) ->
   hasCategoryInSet E o (Some s) MInherited = hasCategoryInSet E o (Some s) MExact).
Proof.
  split.
  - intros [k0 [Hk0 Hr0]]. unfold hasCategoryInSet.
    destruct (inherit_all E o s None) as [r|] eqn:Hinh.
    2: { apply inherit_all_none in Hinh. destruct Hinh as [_ Hall].
         exfalso. exact (Hr0 (Hall k0 Hk0)). }
    rewrite existsb_exists. split.
    + intros [own [Hown Hc]]. rewrite chain_in_set_eq in Hc.
      apply existsb_exists in Hc. destruct Hc as [a [Ha Hc]].
      rewrite !(inherit_all_some E o s None r _ Hinh), inherit_all_ids in Hc.
      cbn [orb] in Hc. rewrite orb_false_r in Hc.
      apply existsb_exists in Hc. destruct Hc as [k [Hk Hkc]].
      destruct (resolve_catkey E o k) as [c|] eqn:Hrk; [|discriminate].
      apply existsb_exists in Hkc. destruct Hkc as [a' [Ha' Heq]].
      cbn [catkey_eqb] in Heq. apply category_eqb_eq in Heq. subst a'.
      exists own, k, c, a. auto.
    + intros [own [k [c [a [Hown [Hk [Hrk [Ha Hac]]]]]]]]. exists own. split; [exact Hown|].
      rewrite chain_in_set_eq. apply existsb_exists. exists a. split; [exact Ha|].
      rewrite (inherit_all_some E o s None r _ Hinh). cbn [orb].
      apply orb_true_iff. left. apply existsb_exists. exists k. split; [exact Hk|].
      rewrite Hrk. apply existsb_exists. exists a. split; [exact Hac|].
      cbn [catkey_eqb]. apply category_eqb_refl.
  - intros Hall. unfold hasCategoryInSet. now rewrite (inherit_all_unresolved E o s None Hall).
Qed.

Lemma hasCategoryInSet_inherited_witness :
  let cat_C := Category 5 "C"%string (Some cat_B) in
  hasCategoryInSet E0 (mkObject (Some 0) [cat_A] []) (Some [CKCat cat_C]) MExact = false /\
  hasCategoryInSet E0 (mkObject (Some 0) [cat_A] []) (Some [CKCat cat_C]) MInherited = true.
Proof.
  split; [reflexivity|].
  apply (proj1 (hasCategoryInSet_inherited E0 (mkObject (Some 0) [cat_A] [])
                  [CKCat (Category 5 "C"%string (Some cat_B))])).
  - exists (CKCat (Category 5 "C"%string (Some cat_B))). split; [now left | discriminate].
  - exists cat_A, (CKCat (Category 5 "C"%string (Some cat_B))), (Category 5 "C"%string (Some cat_B)), cat_B.
    split; [now left|]. split; [now left|]. split; [reflexivity|].
    split; [right; now left | right; now left].
Defined.

(** [hasCategory] with one category or one id answers as [hasCategoryInSet]
    in the exact mode with the singleton set of it. *)
Theorem hasCategory_single_as_set (E : env) (o : gobject) (c : category) (id : string) :
  _hasCategory o c = hasCategoryInSet E o (Some [CKCat c]) MExact /\
  _hasCategoryId o id = hasCategoryInSet E o (Some [CKId id]) MExact.
Proof.
  unfold _hasCategory, _hasCategoryId, hasCategoryInSet. split.
  - induction (o_categories o) as [|own rest IH]; [reflexivity|]. cbn [existsb].
    rewrite IH, chain_in_set_eq. f_equal. unfold _isBasedOnCategory.
    induction (category_chain own) as [|a l IHl]; [reflexivity|]. cbn [existsb].
    rewrite IHl. f_equal. unfold key_has. cbn [existsb catkey_eqb].
    now rewrite !orb_false_r, category_eqb_sym.
  - induction (o_categories o) as [|own rest IH]; [reflexivity|]. cbn [existsb].
    rewrite IH, chain_in_set_eq. f_equal. unfold _isBasedOnCategoryId.
    induction (category_chain own) as [|a l IHl]; [reflexivity|]. cbn [existsb].
    rewrite IHl. f_equal. unfold key_has. cbn [existsb catkey_eqb].
    now rewrite !orb_false_r.
Qed.
